(** * Portfolio script: a shallow embedding of [script.js] and its properties

    The script drives a static portfolio page: a navigation bar that tracks
    the scroll position, count-up statistics, a contact form that hands its
    data to a [mailto:] link, and a scroll-to-top button.  Every controller
    is embedded as functions over an explicit piece of page state; timers are
    embedded as a queue of pending callbacks driven by timestamped events.

    The first part of the file holds the embedding, the second part the
    properties. *)

From Stdlib Require Import ZArith List String Ascii Lia Bool QArith Qround.
From Stdlib Require Import DecimalString.
From Stdlib Require PrimFloat FloatOps SpecFloat.
From stdpp Require Import base option list gmap.
Import ListNotations.

Local Open Scope Z_scope.

(** ** Strings

    A script string is a sequence of code points; the literals of the script
    are written with [str].  An element in the surrogate range stands for an
    unpaired surrogate code unit. *)

Definition jsstring : Type := list Z.

Definition str (s : string) : jsstring :=
  map (fun a => Z.of_N (N_of_ascii a)) (list_ascii_of_string s).

Arguments str : simpl never.

Definition jsstring_eqb (a b : jsstring) : bool := bool_decide (a = b).

(** White space and line terminators: what [String.prototype.trim] strips
    and what the class [\s] of a regular expression matches. *)
Definition is_space (c : Z) : bool :=
  ((9 <=? c) && (c <=? 13)) || (c =? 32) || (c =? 160) || (c =? 5760)
  || ((8192 <=? c) && (c <=? 8202)) || (c =? 8232) || (c =? 8233)
  || (c =? 8239) || (c =? 8287) || (c =? 12288) || (c =? 65279).

Fixpoint trimStart (s : jsstring) : jsstring :=
  match s with
  | c :: s' => if is_space c then trimStart s' else s
  | [] => []
  end.

Definition trimEnd (s : jsstring) : jsstring := rev (trimStart (rev s)).

Definition trim (s : jsstring) : jsstring := trimEnd (trimStart s).

(** Decimal rendering of an integer: every digit, with a minus sign before
    a negative one.  This is what the conversion of a number to a string
    gives for an integer below 2^53 in absolute value; above, a script number
    does not hold every integer, and from 10^21 on the conversion switches to
    exponent notation. *)
Definition decimal (z : Z) : jsstring :=
  str (DecimalString.NilZero.string_of_int (Z.to_int z)).

(** ** Token lists ([classList]) *)

Module DOMTokenList.

Definition t : Type := list jsstring.

Definition contains (tok : jsstring) (l : t) : bool :=
  existsb (jsstring_eqb tok) l.

Definition add (tok : jsstring) (l : t) : t :=
  if contains tok l then l else l ++ [tok].

Definition remove (tok : jsstring) (l : t) : t :=
  List.filter (fun x => negb (jsstring_eqb tok x)) l.

(** [toggle(token, force)], the force argument given. *)
Definition toggle_force (tok : jsstring) (force : bool) (l : t) : t :=
  if force then add tok l else remove tok l.

(** [toggle(token)], no force argument. *)
Definition toggle (tok : jsstring) (l : t) : t :=
  if contains tok l then remove tok l else add tok l.

End DOMTokenList.

(** ** Completions: a call returns normally or throws *)

Inductive completion (A : Type) : Type :=
| Normal (a : A)
| Throw (error : jsstring) (a : A).
Arguments Normal {A} a.
Arguments Throw {A} error a.

(** ** Percent-encoding ([encodeURIComponent]) *)

Module URI.

Definition is_alpha (c : Z) : bool :=
  ((65 <=? c) && (c <=? 90)) || ((97 <=? c) && (c <=? 122)).

Definition is_digit (c : Z) : bool := (48 <=? c) && (c <=? 57).

(** The marks left alone: - _ . ! ~ * ' ( ) *)
Definition is_mark (c : Z) : bool :=
  (c =? 45) || (c =? 95) || (c =? 46) || (c =? 33) || (c =? 126)
  || (c =? 42) || (c =? 39) || (c =? 40) || (c =? 41).

Definition unreserved (c : Z) : bool := is_alpha c || is_digit c || is_mark c.

Definition is_surrogate (c : Z) : bool := (55296 <=? c) && (c <=? 57343).

(** A Unicode scalar value: a code point that is no surrogate. *)
Definition scalar (c : Z) : bool :=
  (0 <=? c) && (c <=? 1114111) && negb (is_surrogate c).

Definition utf8 (c : Z) : list Z :=
  if c <? 128 then [c]
  else if c <? 2048 then [192 + c / 64; 128 + c mod 64]
  else if c <? 65536 then
    [224 + c / 4096; 128 + (c / 64) mod 64; 128 + c mod 64]
  else
    [240 + c / 262144; 128 + (c / 4096) mod 64; 128 + (c / 64) mod 64;
     128 + c mod 64].

Definition hex_digit (n : Z) : Z := if n <? 10 then 48 + n else 55 + n.

Definition escape_byte (b : Z) : jsstring :=
  [37; hex_digit (b / 16); hex_digit (b mod 16)].

(** [None] stands for the [URIError] thrown at an unpaired surrogate. *)
Fixpoint encodeURIComponent (s : jsstring) : option jsstring :=
  match s with
  | [] => Some []
  | c :: s' =>
    if unreserved c then option_map (cons c) (encodeURIComponent s')
    else if scalar c then
      option_map (app (concat (map escape_byte (utf8 c))))
                 (encodeURIComponent s')
    else None
  end.

(** The characters of an encoded component: the unreserved ones and "%". *)
Definition uri_char (c : Z) : bool := unreserved c || (c =? 37).

(** The inverse direction, used to read a constructed link back. *)

Definition hex_value (d : Z) : option Z :=
  if is_digit d then Some (d - 48)
  else if (65 <=? d) && (d <=? 70) then Some (d - 55)
  else if (97 <=? d) && (d <=? 102) then Some (d - 87)
  else None.

(** Percent-decoding to bytes: every character of the input is either the
    start of an escape or stands for itself. *)
Fixpoint unescape (s : jsstring) : option (list Z) :=
  match s with
  | [] => Some []
  | c :: s' =>
    if c =? 37 then
      match s' with
      | h :: l :: s'' =>
        match hex_value h, hex_value l, unescape s'' with
        | Some a, Some b, Some r => Some (16 * a + b :: r)
        | _, _, _ => None
        end
      | _ => None
      end
    else option_map (cons c) (unescape s')
  end.

Definition is_cont (b : Z) : bool := (128 <=? b) && (b <=? 191).

(** Decoding of UTF-8: shortest forms only, no surrogates, at most U+10FFFF. *)
Fixpoint utf8_decode (bs : list Z) : option jsstring :=
  match bs with
  | [] => Some []
  | b1 :: r1 =>
    if (0 <=? b1) && (b1 <? 128) then
      option_map (cons b1) (utf8_decode r1)
    else if (194 <=? b1) && (b1 <=? 223) then
      match r1 with
      | b2 :: r2 =>
        if is_cont b2 then
          option_map (cons ((b1 - 192) * 64 + (b2 - 128))) (utf8_decode r2)
        else None
      | _ => None
      end
    else if (224 <=? b1) && (b1 <=? 239) then
      match r1 with
      | b2 :: b3 :: r3 =>
        let c := (b1 - 224) * 4096 + (b2 - 128) * 64 + (b3 - 128) in
        if is_cont b2 && is_cont b3 && (2048 <=? c) && scalar c then
          option_map (cons c) (utf8_decode r3)
        else None
      | _ => None
      end
    else if (240 <=? b1) && (b1 <=? 244) then
      match r1 with
      | b2 :: b3 :: b4 :: r4 =>
        let c := (b1 - 240) * 262144 + (b2 - 128) * 4096
                 + (b3 - 128) * 64 + (b4 - 128) in
        if is_cont b2 && is_cont b3 && is_cont b4 && (65536 <=? c)
           && scalar c then
          option_map (cons c) (utf8_decode r4)
        else None
      | _ => None
      end
    else None
  end.

(** Reading an encoded component back: unescape, then decode the bytes. *)
Definition percent_decode (s : jsstring) : option jsstring :=
  match unescape s with
  | Some bs => utf8_decode bs
  | None => None
  end.

End URI.

(** ** Navigation *)

Module Navigation.

Record section : Type := {
  sec_id : jsstring;        (* getAttribute('id') *)
  offsetTop : Z;
  offsetHeight : Z
}.

Record navlink : Type := {
  href : option jsstring;   (* getAttribute('href'), null when absent *)
  classList : DOMTokenList.t
}.

Inductive scroll_behavior : Type := smooth | instant.

Record scroll_to : Type := { top : Z; behavior : scroll_behavior }.

(** What [document.querySelector] answers for a selector: a [SyntaxError]
    for a string that is no selector, [null], or the first match. *)
Inductive query_result : Type :=
| QSyntaxError
| QNull
| QElement (e : section).

Record state : Type := {
  navbar : DOMTokenList.t;
  navMenu : DOMTokenList.t;
  hamburger : DOMTokenList.t;
  navLinks : list navlink;
  body_overflow : jsstring;          (* document.body.style.overflow *)
  sections : list section;           (* querySelectorAll('section[id]') *)
  scrollY : Z;                       (* window.scrollY *)
  scrolled_to : option scroll_to     (* the last window.scrollTo request *)
}.

Definition set_navbar (v : DOMTokenList.t) (s : state) : state :=
  {| navbar := v; navMenu := navMenu s; hamburger := hamburger s;
     navLinks := navLinks s; body_overflow := body_overflow s;
     sections := sections s; scrollY := scrollY s;
     scrolled_to := scrolled_to s |}.

Definition set_navLinks (v : list navlink) (s : state) : state :=
  {| navbar := navbar s; navMenu := navMenu s; hamburger := hamburger s;
     navLinks := v; body_overflow := body_overflow s;
     sections := sections s; scrollY := scrollY s;
     scrolled_to := scrolled_to s |}.

Definition set_scrollY (v : Z) (s : state) : state :=
  {| navbar := navbar s; navMenu := navMenu s; hamburger := hamburger s;
     navLinks := navLinks s; body_overflow := body_overflow s;
     sections := sections s; scrollY := v;
     scrolled_to := scrolled_to s |}.

Definition scrollTo (v : scroll_to) (s : state) : state :=
  {| navbar := navbar s; navMenu := navMenu s; hamburger := hamburger s;
     navLinks := navLinks s; body_overflow := body_overflow s;
     sections := sections s; scrollY := scrollY s;
     scrolled_to := Some v |}.

Definition toggleMobileMenu (s : state) : state :=
  let menu := DOMTokenList.toggle (str "active") (navMenu s) in
  {| navbar := navbar s; navMenu := menu;
     hamburger := DOMTokenList.toggle (str "active") (hamburger s);
     navLinks := navLinks s;
     body_overflow :=
       if DOMTokenList.contains (str "active") menu then str "hidden"
       else str "";
     sections := sections s; scrollY := scrollY s;
     scrolled_to := scrolled_to s |}.

Definition closeMobileMenu (s : state) : state :=
  {| navbar := navbar s;
     navMenu := DOMTokenList.remove (str "active") (navMenu s);
     hamburger := DOMTokenList.remove (str "active") (hamburger s);
     navLinks := navLinks s; body_overflow := str "";
     sections := sections s; scrollY := scrollY s;
     scrolled_to := scrolled_to s |}.

Section WithDocument.

(** [document.querySelector], given by the page. *)
Variable querySelector : jsstring -> query_result.

(** A [null] attribute reaches [querySelector] as the string "null". *)
Definition selector_of (h : option jsstring) : jsstring :=
  match h with Some t => t | None => str "null" end.

Definition handleNavClick (link : navlink) (s : state) : completion state :=
  let targetId := href link in
  match querySelector (selector_of targetId) with
  | QSyntaxError => Throw (str "SyntaxError") s
  | QElement targetSection =>
    let offset := offsetTop targetSection - 80 in
    Normal (closeMobileMenu
              (scrollTo {| top := offset; behavior := smooth |} s))
  | QNull => Normal (closeMobileMenu s)
  end.

(** The click event as the listener sees it. *)
Record click_event : Type := { defaultPrevented : bool }.

Definition preventDefault (e : click_event) : click_event :=
  {| defaultPrevented := true |}.

(** The listener of a navigation link:
    [e.preventDefault(); this.handleNavClick(link)]. *)
Definition link_click_listener (link : navlink) (e : click_event) (s : state)
  : click_event * completion state :=
  let e' := preventDefault e in
  (e', handleNavClick link s).

End WithDocument.

Definition handleScroll (s : state) : state :=
  let scrolled := 50 <? scrollY s in
  set_navbar (DOMTokenList.toggle_force (str "scrolled") scrolled (navbar s)) s.

(** The body of the inner [forEach] of [updateActiveLink], for one link. *)
Definition mark (sectionId : jsstring) (link : navlink) : navlink :=
  let cleared := DOMTokenList.remove (str "active") (classList link) in
  {| href := href link;
     classList :=
       if bool_decide (href link = Some (str "#" ++ sectionId))
       then DOMTokenList.add (str "active") cleared
       else cleared |}.

Definition in_span (scrollPosition : Z) (sec : section) : bool :=
  (offsetTop sec <=? scrollPosition)
  && (scrollPosition <? offsetTop sec + offsetHeight sec).

Definition updateActiveLink (s : state) : state :=
  let scrollPosition := scrollY s + 100 in
  set_navLinks
    (fold_left
       (fun links sec =>
          if in_span scrollPosition sec then map (mark (sec_id sec)) links
          else links)
       (sections s) (navLinks s))
    s.

(** The throttled scroll listener's body. *)
Definition scroll_listener (s : state) : state :=
  updateActiveLink (handleScroll s).

Definition is_active (link : navlink) : bool :=
  DOMTokenList.contains (str "active") (classList link).

(** The link points at the section: its [href] is "#" and the section's id. *)
Definition targets (sec : section) (link : navlink) : bool :=
  bool_decide (href link = Some (str "#" ++ sec_id sec)).

(** The first and the last section, in document order, whose span holds a
    position. *)
Definition first_in_span (pos : Z) (secs : list section) : option section :=
  List.find (in_span pos) secs.

Definition last_in_span (pos : Z) (secs : list section) : option section :=
  List.find (in_span pos) (rev secs).

(** The active-link rule as the specification words it: the active links
    are those of the first section in whose span the position lies, and
    there is exactly one of them; with no such section nothing changes. *)
Definition first_section_wins (s : state) : Prop :=
  match first_in_span (scrollY s + 100) (sections s) with
  | Some sec =>
    map is_active (navLinks (updateActiveLink s))
    = map (targets sec) (navLinks s)
    /\ length (List.filter is_active (navLinks (updateActiveLink s))) = 1%nat
  | None => navLinks (updateActiveLink s) = navLinks s
  end.

(** A page whose second section lies inside the first, with one link for
    each, scrolled to the top. *)
Definition nested_page : state :=
  {| navbar := [str "navbar"]; navMenu := [str "nav-menu"];
     hamburger := [str "hamburger"];
     navLinks := [ {| href := Some (str "#about"); classList := [str "nav-link"] |};
                   {| href := Some (str "#skills"); classList := [str "nav-link"] |} ];
     body_overflow := str "";
     sections := [ {| sec_id := str "about"; offsetTop := 0; offsetHeight := 900 |};
                   {| sec_id := str "skills"; offsetTop := 50; offsetHeight := 400 |} ];
     scrollY := 0;
     scrolled_to := None |}.

(** A document with the one section "about", 640 units down the page. *)
Definition about_section : section :=
  {| sec_id := str "about"; offsetTop := 640; offsetHeight := 900 |}.

Definition about_document (selector : jsstring) : query_result :=
  if jsstring_eqb selector (str "#about") then QElement about_section
  else if jsstring_eqb selector (str "#") then QSyntaxError
  else QNull.

Definition menu_closed (s : state) : Prop :=
  DOMTokenList.contains (str "active") (navMenu s) = false
  /\ DOMTokenList.contains (str "active") (hamburger s) = false
  /\ body_overflow s = str "".

(** The rule of a link click as the specification words it: whatever the
    link, the call surfaces no error and leaves the menu closed. *)
Definition click_closes_menu (querySelector : jsstring -> query_result)
           (link : navlink) (s : state) : Prop :=
  exists s', handleNavClick querySelector link s = Normal s' /\ menu_closed s'.

(** A link whose [href] is a bare "#", which is no selector. *)
Definition bare_hash_link : navlink :=
  {| href := Some (str "#"); classList := [str "nav-link"] |}.

End Navigation.

(** ** Scroll to top *)

Module ScrollToTop.

Record button : Type := {
  opacity : jsstring;       (* style.opacity *)
  visibility : jsstring     (* style.visibility *)
}.

(** The button as [createButton] leaves it. *)
Definition createButton : button :=
  {| opacity := str "0"; visibility := str "hidden" |}.

Definition toggleButton (scrollY : Z) (b : button) : button :=
  let scrolled := 300 <? scrollY in
  {| opacity := if scrolled then str "1" else str "0";
     visibility := if scrolled then str "visible" else str "hidden" |}.

Definition is_visible (b : button) : bool :=
  jsstring_eqb (visibility b) (str "visible").

End ScrollToTop.

(** ** Counter animation *)

Module AnimationManager.

(** The arithmetic of script numbers that [animateCounter] uses.  The
    embedding is generic in it, so that what is proved of a tick holds for
    double-precision arithmetic as for exact arithmetic. *)
Class Arith (num : Type) : Type := {
  of_int : Z -> num;
  add : num -> num -> num;
  div : num -> num -> num;
  geb : num -> num -> bool;     (* a >= b *)
  floor : num -> Z              (* Math.floor *)
}.

Record counter (num : Type) : Type := {
  current : num;
  textContent : jsstring;
  timer : bool                  (* the interval is still set *)
}.
Arguments current {num} c.
Arguments textContent {num} c.
Arguments timer {num} c.

Section Counter.
Context {num : Type} `{Arith num}.

(** The callback given to [setInterval], for the target of the counter. *)
Definition tick (target : Z) (c : counter num) : counter num :=
  let increment := div (of_int target) (of_int 60) in
  let current' := add (current c) increment in
  if geb current' (of_int target) then
    {| current := current';
       textContent :=
         decimal target ++ (if target =? 3 then str "+" else str "");
       timer := false |}
  else
    {| current := current';
       textContent :=
         decimal (floor current')
         ++ (if 10 <? target then str "+" else str "");
       timer := true |}.

(** [animateCounter(element, target)]: the counter starts at 0 over the
    element's text, with the interval set. *)
Definition animateCounter (text : jsstring) : counter num :=
  {| current := of_int 0; textContent := text; timer := true |}.

(** The interval fires [n] times, unless the callback clears it before. *)
Fixpoint run (n : nat) (target : Z) (c : counter num) : counter num :=
  match n with
  | O => c
  | S n' => if timer c then run n' target (tick target c) else c
  end.

End Counter.

(** Exact rational arithmetic: the counter as it would run without
    rounding.  The numbers of the script are the doubles of [binary64]
    below; the two agree on the first tick and part ways after it. *)
#[global] Instance exact : Arith Q := {
  of_int := inject_Z;
  add := Qplus;
  div := Qdiv;
  geb := fun a b => Qle_bool b a;
  floor := Qfloor
}.

(** The double nearest to an integer, ties to even, and an infinity beyond
    the range: what [parseInt] gives for the digits of a stat, and what the
    literals [0] and [60] are. *)
Definition Number (z : Z) : PrimFloat.float :=
  FloatOps.SF2Prim
    (SpecFloat.binary_normalize FloatOps.prec FloatOps.emax z 0 false).

(** [Math.floor] of a finite double, whose value is [m * 2 ^ e] with the
    sign [s].  The callback takes the floor of a value below its target
    only, which is finite; for an infinity or NaN, where the script would
    print the name, 0 stands here. *)
Definition Math_floor (x : PrimFloat.float) : Z :=
  match FloatOps.Prim2SF x with
  | SpecFloat.S754_finite s m e =>
    let n := if s then Z.neg m else Z.pos m in
    if 0 <=? e then n * 2 ^ e else n / 2 ^ (- e)
  | _ => 0
  end.

(** Double-precision arithmetic, the arithmetic of the script. *)
#[global] Instance binary64 : Arith PrimFloat.float := {
  of_int := Number;
  add := PrimFloat.add;
  div := PrimFloat.div;
  geb := fun a b => PrimFloat.leb b a;
  floor := Math_floor
}.

Section Count.
Context {num : Type} `{Arith num}.

(** The counter without its text: the value after [n] ticks, and whether
    the interval is still set, for steps of [increment] towards [target]. *)
Fixpoint count (n : nat) (target increment current : num) : num * bool :=
  match n with
  | O => (current, true)
  | S n' =>
    let current' := add current increment in
    if geb current' target then (current', false)
    else count n' target increment current'
  end.

End Count.

(** The [n] integers from [from] on. *)
Fixpoint upto (n : nat) (from : Z) : list Z :=
  match n with
  | O => []
  | S n' => from :: upto n' (from + 1)
  end.

(** In double precision the counter of the target [t] has stopped after 61
    ticks and, for a positive target, not before the 60th. *)
Definition stops_in_time (t : Z) : bool :=
  let target := Number t in
  let increment := PrimFloat.div target (Number 60) in
  negb (count 61 target increment (Number 0)).2
  && ((t <=? 0) || (count 59 target increment (Number 0)).2).

(** The integer that the count of [k] sixtieths of [t] is expected to show:
    the integer part of k*t/60, or one less where k*t/60 is itself an
    integer that the rounded sum stays below. *)
Definition near_floor (k t shown : Z) : bool :=
  (shown =? k * t / 60)
  || ((shown =? k * t / 60 - 1) && (k * t mod 60 =? 0)).

(** In double precision the counter of [t] is running on each of the first
    59 ticks, on a value whose floor is the expected one. *)
Definition counts_up (t : Z) : bool :=
  let target := Number t in
  let increment := PrimFloat.div target (Number 60) in
  forallb (fun k : nat =>
             let p := count k target increment (Number 0) in
             p.2 && near_floor (Z.of_nat k) t (Math_floor p.1))
          (seq 1 59).

(** The text that the last tick writes. *)
Definition final_text (target : Z) : jsstring :=
  decimal target ++ (if target =? 3 then str "+" else str "").

(** The text that a tick writes while the target is not reached. *)
Definition running_text (shown target : Z) : jsstring :=
  decimal shown ++ (if 10 <? target then str "+" else str "").

(** The suffix rule as the specification words it: a "+" when the target
    exceeds 10, and a "+" when the target is exactly 3. *)
Definition spec_final_text (target : Z) : jsstring :=
  decimal target
  ++ (if (10 <? target) || (target =? 3) then str "+" else str "").

End AnimationManager.

(** ** Contact form *)

Module Regex.

(** The patterns of the script are anchored sequences of literal characters
    and of one-or-more repetitions of a character class. *)
Inductive atom : Type :=
| Lit (c : Z)
| Plus (cls : Z -> bool).

(** [cls+] followed by [k]: the longest repetition first, then shorter ones. *)
Fixpoint plus_match (cls : Z -> bool) (k : jsstring -> bool) (s : jsstring)
  : bool :=
  match s with
  | [] => false
  | c :: s' => cls c && (plus_match cls k s' || k s')
  end.

(** [^atoms$] against the whole of [s]. *)
Fixpoint test (atoms : list atom) : jsstring -> bool :=
  match atoms with
  | [] => fun s => match s with [] => true | _ => false end
  | Lit c :: rest =>
    fun s => match s with
             | x :: s' => (x =? c) && test rest s'
             | [] => false
             end
  | Plus cls :: rest => plus_match cls (test rest)
  end.

End Regex.

Module ContactForm.

Record node : Type := {
  className : DOMTokenList.t;
  textContent : jsstring;
  style : list (jsstring * jsstring)
}.

(** A form control, with the elements below its parent node in document
    order. *)
Record field : Type := {
  name : option jsstring;
  type : jsstring;
  value : jsstring;
  classList : DOMTokenList.t;
  parent : list node
}.

Definition is_field_error (n : node) : bool :=
  DOMTokenList.contains (str "field-error") (className n).

(** [querySelector('.field-error')] followed by [remove()] of what it found. *)
Fixpoint remove_first (l : list node) : list node :=
  match l with
  | [] => []
  | n :: l' => if is_field_error n then l' else n :: remove_first l'
  end.

Definition clearFieldError (f : field) : field :=
  {| name := name f; type := type f; value := value f;
     classList := DOMTokenList.remove (str "error") (classList f);
     parent := remove_first (parent f) |}.

Definition errorElement (message : jsstring) : node :=
  {| className := [str "field-error"];
     textContent := message;
     style := [(str "color", str "#ef4444");
               (str "fontSize", str "0.875rem");
               (str "marginTop", str "0.25rem");
               (str "display", str "block")] |}.

Definition showFieldError (f : field) (message : jsstring) : field :=
  let f1 := clearFieldError f in
  {| name := name f1; type := type f1; value := value f1;
     classList := DOMTokenList.add (str "error") (classList f1);
     parent := parent f1 ++ [errorElement message] |}.

(** [[^\s@]]. *)
Definition not_space_at (c : Z) : bool := negb (is_space c || (c =? 64)).

(** [/^[^\s@]+@[^\s@]+\.[^\s@]+$/]. *)
Definition emailRegex : list Regex.atom :=
  [Regex.Plus not_space_at; Regex.Lit 64; Regex.Plus not_space_at;
   Regex.Lit 46; Regex.Plus not_space_at].

(** The shape local@domain.tld: three non-empty runs free of white space
    and of "@", the first two separated by "@", the last two by a dot. *)
Definition email_shape (v : jsstring) : Prop :=
  exists l d t : jsstring,
    v = l ++ 64 :: d ++ 46 :: t
    /\ l <> [] /\ d <> [] /\ t <> []
    /\ forallb not_space_at (l ++ d ++ t) = true.

Definition required_message : jsstring := str "This field is required".
Definition email_message : jsstring :=
  str "Please enter a valid email address".

(** The verdict of [validateField], before it touches the page. *)
Definition check (f : field) : bool * jsstring :=
  let v := trim (value f) in
  match v with
  | [] => (false, required_message)
  | _ =>
    if jsstring_eqb (type f) (str "email") then
      if negb (Regex.test emailRegex v) then (false, email_message)
      else (true, str "")
    else (true, str "")
  end.

Definition validateField (f : field) : bool * field :=
  let '(isValid, errorMessage) := check f in
  if negb isValid then (isValid, showFieldError f errorMessage)
  else (isValid, clearFieldError f).

Record submit_button : Type := { innerHTML : jsstring; disabled : bool }.

(** The callback that [sendEmail] defers by a second: it puts the label
    back on the button, enables it, resets the form and shows the success
    message.  The embedding keeps the pending callback, with the label it
    holds, and does not run it. *)
Inductive deferred : Type := RestoreForm (originalText : jsstring).

Record form : Type := {
  inputs : list field;                  (* querySelectorAll('input, textarea') *)
  submitButton : option submit_button;  (* querySelector('button[type=submit]') *)
  location_href : jsstring;             (* window.location.href *)
  timeouts : list (Z * deferred)        (* pending setTimeout calls *)
}.

(** The entries of [new FormData(form)], for a form whose named controls
    are the text inputs and textareas of [inputs], none of them disabled:
    one entry for every named control, with its value.  (A form with other
    controls has other entries: none for an unchecked box or a disabled
    control, one for a select element.) *)
Definition entries (fs : list field) : list (jsstring * jsstring) :=
  omap (fun f => match name f with
                 | Some n => Some (n, value f)
                 | None => None
                 end) fs.

(** [Object.fromEntries]: a later entry of a name replaces an earlier
    one. *)
Definition fromEntries (es : list (jsstring * jsstring))
  : gmap jsstring jsstring :=
  fold_left (fun m e => <[e.1 := e.2]> m) es ∅.

(** A property read inside a template literal. *)
Definition prop (data : gmap jsstring jsstring) (key : string) : jsstring :=
  match data !! str key with
  | Some v => v
  | None => str "undefined"
  end.

Definition nl : jsstring := [10].

Definition subject_text (data : gmap jsstring jsstring) : jsstring :=
  str "Portfolio Contact: " ++ prop data "subject".

Definition body_text (data : gmap jsstring jsstring) : jsstring :=
  nl ++ str "Name: " ++ prop data "name" ++ nl
  ++ str "Email: " ++ prop data "email" ++ nl
  ++ str "Subject: " ++ prop data "subject" ++ nl
  ++ nl
  ++ str "Message:" ++ nl
  ++ prop data "message" ++ nl
  ++ str "    ".

Definition recipient : jsstring := str "saikumarpolavaram@outlook.com".

(** The link that [sendEmail] builds; [None] when an encoding throws. *)
Definition mailtoLink (data : gmap jsstring jsstring) : option jsstring :=
  match URI.encodeURIComponent (subject_text data) with
  | None => None
  | Some subject =>
    match URI.encodeURIComponent (body_text data) with
    | None => None
    | Some body =>
      Some (str "mailto:" ++ recipient ++ str "?subject=" ++ subject
            ++ str "&body=" ++ body)
    end
  end.

(** The data of the specification's example. *)
Definition example_data : gmap jsstring jsstring :=
  fromEntries [(str "name", str "A"); (str "email", str "a@b.com");
               (str "subject", str "Hi"); (str "message", str "Test")].

Definition sending_label : jsstring :=
  str "<i class=" ++ [34] ++ str "fas fa-spinner fa-spin" ++ [34]
  ++ str "></i> Sending...".

Definition sendEmail (data : gmap jsstring jsstring) (f : form)
  : completion form :=
  match submitButton f with
  | None => Throw (str "TypeError") f
  | Some submit =>
    let originalText := innerHTML submit in
    let f1 := {| inputs := inputs f;
                 submitButton :=
                   Some {| innerHTML := sending_label; disabled := true |};
                 location_href := location_href f;
                 timeouts := timeouts f |} in
    match mailtoLink data with
    | None => Throw (str "URIError") f1
    | Some link =>
      Normal {| inputs := inputs f1;
                submitButton := submitButton f1;
                location_href := link;
                timeouts := timeouts f1 ++ [(1000, RestoreForm originalText)] |}
    end
  end.

(** The [forEach] over the inputs: every field is validated, and the flag
    falls at every invalid one. *)
Fixpoint validate_inputs (fs : list field) (isFormValid : bool)
  : bool * list field :=
  match fs with
  | [] => (isFormValid, [])
  | f :: fs' =>
    let '(ok, f') := validateField f in
    let '(flag, rest) :=
      validate_inputs fs' (if negb ok then false else isFormValid) in
    (flag, f' :: rest)
  end.

Definition handleFormSubmit (f : form) : completion form :=
  let data := fromEntries (entries (inputs f)) in
  let '(isFormValid, inputs') := validate_inputs (inputs f) true in
  let f1 := {| inputs := inputs'; submitButton := submitButton f;
               location_href := location_href f; timeouts := timeouts f |} in
  if isFormValid then sendEmail data f1 else Normal f1.

(** One operation on a field, as the listeners and [handleFormSubmit] run
    them; the user may have typed a new value before a validation. *)
Inductive operation : Type :=
| Validate (typed : jsstring)
| ShowError (message : jsstring)
| ClearError.

Definition set_value (v : jsstring) (f : field) : field :=
  {| name := name f; type := type f; value := v;
     classList := classList f; parent := parent f |}.

Definition apply_operation (f : field) (op : operation) : field :=
  match op with
  | Validate typed => (validateField (set_value typed f)).2
  | ShowError message => showFieldError f message
  | ClearError => clearFieldError f
  end.

Definition count_errors (f : field) : nat :=
  length (List.filter is_field_error (parent f)).

Definition has_error_class (f : field) : bool :=
  DOMTokenList.contains (str "error") (classList f).

(** At most one error element below the parent, and one exactly when the
    field carries the class "error". *)
Definition single_error (f : field) : Prop :=
  (count_errors f <= 1)%nat
  /\ (count_errors f = 1%nat <-> has_error_class f = true).

(** What [handleFormSubmit] leaves of the form when it sends nothing. *)
Definition validated (f : form) : form :=
  {| inputs := map (fun x => (validateField x).2) (inputs f);
     submitButton := submitButton f;
     location_href := location_href f;
     timeouts := timeouts f |}.

Definition all_valid (f : form) : bool :=
  forallb (fun x => (validateField x).1) (inputs f).

(** A control of a given type and value, with no error shown. *)
Definition control (ty v : string) : field :=
  {| name := Some (str ty); type := str ty; value := str v;
     classList := [str "form-input"];
     parent := [ {| className := [str "form-label"];
                    textContent := str ty; style := [] |} ] |}.

End ContactForm.

(** ** Timers: [throttle] and [debounce]

    A wrapper lives in an event loop.  An event carries the time at which
    the loop runs it: either a call of the wrapper, or the callback of a
    pending timer, which the loop never runs before the timer is due.  Time
    does not go back.  A list of events that breaks one of the two rules is
    no execution, and [run] gives [None] for it. *)

(** Times that do not go back. *)
Fixpoint ascending (ts : list Z) : Prop :=
  match ts with
  | a :: ((b :: _) as rest) => a <= b /\ ascending rest
  | _ => True
  end.

(** Every time is less than [wait] after the time before it. *)
Fixpoint close_together (wait : Z) (ts : list Z) : Prop :=
  match ts with
  | a :: ((b :: _) as rest) => b < a + wait /\ close_together wait rest
  | _ => True
  end.

(** The throttle of a callback that returns, for an interval that the
    timer takes as it is, a 32-bit integer; [Throttled] below has every
    callback and every interval. *)
Module Throttle.

Section Wrapper.
Context {A : Type}.            (* the arguments of a call *)

Record state : Type := {
  inThrottle : bool;           (* undefined at first, which is falsy *)
  pending : list Z;            (* when the pending resets are due *)
  calls : list A               (* the calls of [func] so far *)
}.

Definition initial : state :=
  {| inThrottle := false; pending := []; calls := [] |}.

(** The function that [throttle(func, limit)] returns, called at [now],
    when [func] returns and [limit] is a 32-bit integer. *)
Definition wrapper (limit now : Z) (args : A) (s : state) : state :=
  if negb (inThrottle s) then
    {| inThrottle := true;
       pending := pending s ++ [now + Z.max 0 limit];
       calls := calls s ++ [args] |}
  else s.

(** The callback [() => inThrottle = false] of the [i]-th pending timer. *)
Definition reset (i : nat) (s : state) : state :=
  {| inThrottle := false; pending := delete i (pending s); calls := calls s |}.

(** No window is open: the flag is down and no reset is pending. *)
Definition idle (s : state) : Prop := inThrottle s = false /\ pending s = [].

End Wrapper.
Arguments state A : clear implicits.

End Throttle.

(** The debounce for a delay that the timer takes as it is, a 32-bit
    integer; [Debounced] below has every delay. *)
Module Debounce.

Section Wrapper.
Context {A : Type}.

Record timer : Type := { id : nat; due : Z; args : A }.

Record state : Type := {
  timeout : option nat;        (* the variable [timeout] of the closure *)
  pending : list timer;        (* the timers set and neither run nor cleared *)
  next_id : nat;               (* the identifier that setTimeout gives next *)
  calls : list A               (* the calls of [func] so far *)
}.

Definition initial : state :=
  {| timeout := None; pending := []; next_id := 1%nat; calls := [] |}.

Definition clearTimeout (h : option nat) (l : list timer) : list timer :=
  List.filter (fun tm => negb (bool_decide (h = Some (id tm)))) l.

(** [executedFunction(...args)], called at [now], when [wait] is a 32-bit
    integer. *)
Definition wrapper (wait now : Z) (a : A) (s : state) : state :=
  let cleared := clearTimeout (timeout s) (pending s) in
  {| timeout := Some (next_id s);
     pending :=
       cleared ++ [{| id := next_id s; due := now + Z.max 0 wait; args := a |}];
     next_id := S (next_id s);
     calls := calls s |}.

(** The callback [later] of a timer that the loop has taken off the queue. *)
Definition later (tm : timer) (s : state) : state :=
  {| timeout := timeout s;
     pending := clearTimeout (timeout s) (pending s);
     next_id := next_id s;
     calls := calls s ++ [args tm] |}.

Definition take (i : nat) (s : state) : state :=
  {| timeout := timeout s; pending := delete i (pending s);
     next_id := next_id s; calls := calls s |}.

Inductive event : Type :=
| Invoke (t : Z) (a : A)
| Timer (t : Z) (i : nat).

Definition step (wait now : Z) (s : state) (e : event) : option (Z * state) :=
  match e with
  | Invoke t a => if now <=? t then Some (t, wrapper wait t a s) else None
  | Timer t i =>
    match pending s !! i with
    | Some tm =>
      if (now <=? t) && (due tm <=? t) then Some (t, later tm (take i s))
      else None
    | None => None
    end
  end.

Fixpoint run (wait now : Z) (s : state) (evs : list event)
  : option (Z * state) :=
  match evs with
  | [] => Some (now, s)
  | e :: evs' =>
    match step wait now s e with
    | Some (now', s') => run wait now' s' evs'
    | None => None
    end
  end.

(** The calls of the wrapper among the events, with their times. *)
Definition invocations (evs : list event) : list (Z * A) :=
  omap (fun e => match e with
                 | Invoke t a => Some (t, a)
                 | Timer _ _ => None
                 end) evs.

Definition invoke (c : Z * A) : event := Invoke c.1 c.2.

(** The one pending timer is the one of the call [last], and [timeout]
    holds its identifier. *)
Definition armed (wait : Z) (last : Z * A) (s : state) : Prop :=
  exists i : nat,
    timeout s = Some i
    /\ pending s
       = [{| id := i; due := last.1 + Z.max 0 wait; args := last.2 |}].

End Wrapper.
Arguments timer A : clear implicits.
Arguments state A : clear implicits.
Arguments event A : clear implicits.

End Debounce.

(** ** Timers as the page sets them

    [setTimeout(handler, timeout)] takes its timeout as a 32-bit signed
    integer: the number is wrapped into that range, and a negative timeout
    counts as 0.  Times and timeouts are whole numbers of milliseconds. *)

Module Timers.

Definition ToInt32 (z : Z) : Z := (z + 2 ^ 31) mod 2 ^ 32 - 2 ^ 31.

(** The time from the call of [setTimeout] to the earliest run of the
    handler. *)
Definition delay (timeout : Z) : Z := Z.max 0 (ToInt32 timeout).

End Timers.

(** [throttle(func, limit)], for every callback and interval.  The callback
    acts on a world of its own, in which the wrapper is not, and returns or
    throws; an error that it throws leaves the wrapper before the flag is
    raised and the timer set, and the event loop, which reports it, goes
    on. *)
Module Throttled.

Section Wrapper.
Context {A W : Type}.          (* the arguments of a call, the world *)
Variable func : A -> W -> completion W.

Record state : Type := {
  inThrottle : bool;           (* undefined at first, which is falsy *)
  pending : list Z;            (* when the pending resets are due *)
  calls : list A;              (* the calls of [func] so far *)
  world : W                    (* what [func] acts on *)
}.

Definition initial (w : W) : state :=
  {| inThrottle := false; pending := []; calls := []; world := w |}.

(** The function that [throttle(func, limit)] returns, called at [now]. *)
Definition wrapper (limit now : Z) (args : A) (s : state) : completion state :=
  if negb (inThrottle s) then
    match func args (world s) with
    | Normal w =>
      Normal {| inThrottle := true;
                pending := pending s ++ [now + Timers.delay limit];
                calls := calls s ++ [args];
                world := w |}
    | Throw error w =>
      Throw error {| inThrottle := inThrottle s;
                     pending := pending s;
                     calls := calls s ++ [args];
                     world := w |}
    end
  else Normal s.

(** The callback [() => inThrottle = false] of the [i]-th pending timer. *)
Definition reset (i : nat) (s : state) : state :=
  {| inThrottle := false; pending := delete i (pending s);
     calls := calls s; world := world s |}.

Inductive event : Type :=
| Invoke (t : Z) (args : A)
| Timer (t : Z) (i : nat).

Definition time (e : event) : Z :=
  match e with Invoke t _ => t | Timer t _ => t end.

Definition is_invoke (e : event) : bool :=
  match e with Invoke _ _ => true | Timer _ _ => false end.

Definition step (limit now : Z) (s : state) (e : event) : option (Z * state) :=
  match e with
  | Invoke t args =>
    if now <=? t then
      Some (t, match wrapper limit t args s with
               | Normal s' => s'
               | Throw _ s' => s'
               end)
    else None
  | Timer t i =>
    match pending s !! i with
    | Some due =>
      if (now <=? t) && (due <=? t) then Some (t, reset i s) else None
    | None => None
    end
  end.

Fixpoint run (limit now : Z) (s : state) (evs : list event)
  : option (Z * state) :=
  match evs with
  | [] => Some (now, s)
  | e :: evs' =>
    match step limit now s e with
    | Some (now', s') => run limit now' s' evs'
    | None => None
    end
  end.

(** No window is open: the flag is down and no reset is pending. *)
Definition idle (s : state) : Prop := inThrottle s = false /\ pending s = [].

Definition invoke (c : Z * A) : event := Invoke c.1 c.2.

(** The throttle rule as the specification words it, for the callback and
    an interval: from a state with no window open, a call of the wrapper at
    [t1] followed by whatever events before [t1 + limit] leaves the callback
    called exactly once more, for that first call. *)
Definition fires_once_per_window (limit : Z) : Prop :=
  forall (now : Z) (s0 : state) (t1 : Z) (a1 : A) (evs : list event)
         (now' : Z) (s' : state),
    idle s0 ->
    Forall (fun e => time e < t1 + limit) evs ->
    run limit now s0 (Invoke t1 a1 :: evs) = Some (now', s') ->
    calls s' = calls s0 ++ [a1].

(** How many timer callbacks run in an execution, and how many calls of the
    wrapper it has. *)
Definition resets (evs : list event) : nat :=
  length (List.filter (fun e => negb (is_invoke e)) evs).

Definition invokes (evs : list event) : nat :=
  length (List.filter is_invoke evs).

(** One window, one timer: the flag is up exactly while one reset is
    pending. *)
Definition well (s : state) : Prop :=
  if inThrottle s then exists d, pending s = [d] else pending s = [].

(** The callback never throws. *)
Definition returns : Prop := forall a w, exists w', func a w = Normal w'.

End Wrapper.
Arguments state A W : clear implicits.
Arguments event A : clear implicits.
Arguments initial {A W} w.
Arguments reset {A W} i s.
Arguments time {A} e.
Arguments is_invoke {A} e.
Arguments idle {A W} s.
Arguments invoke {A} c.
Arguments resets {A} evs.
Arguments invokes {A} evs.
Arguments well {A W} s.
Arguments Invoke {A} t args.
Arguments Timer {A} t i.

(** A callback that does nothing and one that throws at once. *)
Definition returning : Z -> unit -> completion unit := fun _ w => Normal w.

Definition throwing : Z -> unit -> completion unit :=
  fun _ w => Throw (str "Error") w.

(** The calls of the wrapper carry their own time as argument. *)
Definition stamped (evs : list (event Z)) : Prop :=
  Forall (fun e => match e with
                   | Invoke t a => a = t
                   | Timer _ _ => True
                   end) evs.

End Throttled.

(** [debounce(func, wait)], for every delay.  A callback that throws does
    so at the end of [later], when the timer is gone already. *)
Module Debounced.

Section Wrapper.
Context {A : Type}.

(** [executedFunction(...args)], called at [now]. *)
Definition wrapper (wait now : Z) (a : A) (s : Debounce.state A)
  : Debounce.state A :=
  let cleared :=
    Debounce.clearTimeout (Debounce.timeout s) (Debounce.pending s) in
  {| Debounce.timeout := Some (Debounce.next_id s);
     Debounce.pending :=
       cleared ++ [{| Debounce.id := Debounce.next_id s;
                      Debounce.due := now + Timers.delay wait;
                      Debounce.args := a |}];
     Debounce.next_id := S (Debounce.next_id s);
     Debounce.calls := Debounce.calls s |}.

Definition step (wait now : Z) (s : Debounce.state A) (e : Debounce.event A)
  : option (Z * Debounce.state A) :=
  match e with
  | Debounce.Invoke t a =>
    if now <=? t then Some (t, wrapper wait t a s) else None
  | Debounce.Timer t i =>
    match Debounce.pending s !! i with
    | Some tm =>
      if (now <=? t) && (Debounce.due tm <=? t)
      then Some (t, Debounce.later tm (Debounce.take i s))
      else None
    | None => None
    end
  end.

Fixpoint run (wait now : Z) (s : Debounce.state A)
         (evs : list (Debounce.event A)) : option (Z * Debounce.state A) :=
  match evs with
  | [] => Some (now, s)
  | e :: evs' =>
    match step wait now s e with
    | Some (now', s') => run wait now' s' evs'
    | None => None
    end
  end.

(** The one pending timer is the one of the call [last], and [timeout]
    holds its identifier. *)
Definition armed (wait : Z) (last : Z * A) (s : Debounce.state A) : Prop :=
  exists i : nat,
    Debounce.timeout s = Some i
    /\ Debounce.pending s
       = [{| Debounce.id := i; Debounce.due := last.1 + Timers.delay wait;
             Debounce.args := last.2 |}].

(** The debounce rule as the specification words it, for a delay: when the
    wrapper is called with every call less than [wait] after the one
    before, the callback fires once at most, and then for the last call. *)
Definition fires_once_for_last_call (wait : Z) : Prop :=
  forall (now : Z) (s0 : Debounce.state A) (cs : list (Z * A)) (t : Z) (a : A)
         (evs : list (Debounce.event A)) (now' : Z) (s' : Debounce.state A),
    Debounce.pending s0 = [] ->
    close_together wait (map fst (cs ++ [(t, a)])) ->
    Debounce.invocations evs = cs ++ [(t, a)] ->
    run wait now s0 evs = Some (now', s') ->
    Debounce.calls s' = Debounce.calls s0
    \/ Debounce.calls s' = Debounce.calls s0 ++ [a].

End Wrapper.

End Debounced.

(** ** Navigation: the listeners of [setupEventListeners] *)

Module NavigationEvents.

(** The state that a call leaves behind, returned or thrown. *)
Definition after {A : Type} (c : completion A) : A :=
  match c with Normal a => a | Throw _ a => a end.

(** The listener of [document] for clicks; [inside] is
    [this.navbar.contains(e.target)]. *)
Definition document_click_listener (inside : bool) (s : Navigation.state)
  : Navigation.state :=
  if negb inside
     && DOMTokenList.contains (str "active") (Navigation.navMenu s)
  then Navigation.closeMobileMenu s
  else s.

(** The debounced listener of [window] for resizes, at width [innerWidth]. *)
Definition resize_listener (innerWidth : Z) (s : Navigation.state)
  : Navigation.state :=
  if 768 <? innerWidth then Navigation.closeMobileMenu s else s.

Inductive click_target : Type :=
| OnHamburger
| OnLink (link : Navigation.navlink)
| Elsewhere.

(** What the page hands to the listeners: a click on a target that lies
    inside the navigation bar or not, a resize that the debounce lets
    through, a scroll that the throttle lets through. *)
Inductive event : Type :=
| Click (target : click_target) (inside : bool)
| Resized (innerWidth : Z)
| Scrolled (y : Z).

Section WithDocument.
Variable querySelector : jsstring -> Navigation.query_result.

(** A click runs the listener of its target and then, bubbling, the one of
    the document; a listener that throws does not stop the next one. *)
Definition dispatch (s : Navigation.state) (e : event) : Navigation.state :=
  match e with
  | Click OnHamburger inside =>
    document_click_listener inside (Navigation.toggleMobileMenu s)
  | Click (OnLink link) inside =>
    document_click_listener inside
      (after (Navigation.handleNavClick querySelector link s))
  | Click Elsewhere inside => document_click_listener inside s
  | Resized innerWidth => resize_listener innerWidth s
  | Scrolled y => Navigation.scroll_listener (Navigation.set_scrollY y s)
  end.

End WithDocument.

Definition menu_open (s : Navigation.state) : bool :=
  DOMTokenList.contains (str "active") (Navigation.navMenu s).

(** The toggle control and the menu agree, and the page scroll is locked
    exactly while the menu is open. *)
Definition menu_consistent (s : Navigation.state) : Prop :=
  DOMTokenList.contains (str "active") (Navigation.hamburger s) = menu_open s
  /\ Navigation.body_overflow s
     = (if menu_open s then str "hidden" else str "").

(** The scroll listener behind its throttle: a scroll event at time [now]
    moves the page to [y] and calls the throttled wrapper, which runs the
    listener unless a window is open. *)
Definition throttled_scroll (limit now y : Z)
           (p : Throttle.state Z * Navigation.state)
  : Throttle.state Z * Navigation.state :=
  let s := Navigation.set_scrollY y p.2 in
  (Throttle.wrapper limit now y p.1,
   if negb (Throttle.inThrottle p.1) then Navigation.scroll_listener s else s).

Inductive scroll_event : Type :=
| ScrollAt (t y : Z)
| ResetAt (t : Z) (i : nat).

Definition scroll_step (limit now : Z)
           (p : Throttle.state Z * Navigation.state) (e : scroll_event)
  : option (Z * (Throttle.state Z * Navigation.state)) :=
  match e with
  | ScrollAt t y =>
    if now <=? t then Some (t, throttled_scroll limit t y p) else None
  | ResetAt t i =>
    match Throttle.pending p.1 !! i with
    | Some due =>
      if (now <=? t) && (due <=? t) then Some (t, (Throttle.reset i p.1, p.2))
      else None
    | None => None
    end
  end.

Fixpoint scroll_run (limit now : Z)
         (p : Throttle.state Z * Navigation.state) (evs : list scroll_event)
  : option (Z * (Throttle.state Z * Navigation.state)) :=
  match evs with
  | [] => Some (now, p)
  | e :: evs' =>
    match scroll_step limit now p e with
    | Some (now', p') => scroll_run limit now' p' evs'
    | None => None
    end
  end.

Definition scroll_time (e : scroll_event) : Z :=
  match e with ScrollAt t _ => t | ResetAt t _ => t end.

Definition last_offset (y : Z) (evs : list scroll_event) : Z :=
  fold_left (fun acc e => match e with ScrollAt _ y' => y' | ResetAt _ _ => acc end)
            evs y.

End NavigationEvents.

(** ** Contact form: controls below one parent node *)

Module SharedParent.

Definition with_parent (p : list ContactForm.node) (f : ContactForm.field)
  : ContactForm.field :=
  {| ContactForm.name := ContactForm.name f;
     ContactForm.type := ContactForm.type f;
     ContactForm.value := ContactForm.value f;
     ContactForm.classList := ContactForm.classList f;
     ContactForm.parent := p |}.

(** The loop of [handleFormSubmit] over controls that have the same
    [parentNode]: the elements below that node are one store, which every
    validation reads and writes.  The result holds the flag, the controls
    and the store at the end. *)
Fixpoint validate_inputs (fs : list ContactForm.field)
         (p : list ContactForm.node) (isFormValid : bool)
  : bool * list ContactForm.field * list ContactForm.node :=
  match fs with
  | [] => (isFormValid, [], p)
  | f :: fs' =>
    let '(ok, f') := ContactForm.validateField (with_parent p f) in
    let '(flag, rest, p') :=
      validate_inputs fs' (ContactForm.parent f')
                      (if negb ok then false else isFormValid) in
    (flag, f' :: rest, p')
  end.

End SharedParent.

(** ** Contact form: the message on display *)

Module ErrorDisplay.

(** The messages that an operation on a field leaves on display. *)
Definition displayed (f : ContactForm.field) (op : ContactForm.operation)
  : list jsstring :=
  match op with
  | ContactForm.Validate typed =>
    let '(ok, message) := ContactForm.check (ContactForm.set_value typed f) in
    if ok then [] else [message]
  | ContactForm.ShowError message => [message]
  | ContactForm.ClearError => []
  end.

(** The texts of the error elements below the parent of a field. *)
Definition shown (f : ContactForm.field) : list jsstring :=
  map ContactForm.textContent
      (List.filter ContactForm.is_field_error (ContactForm.parent f)).

(** The elements below the parent that are no error elements. *)
Definition others (f : ContactForm.field) : list ContactForm.node :=
  List.filter (fun n => negb (ContactForm.is_field_error n))
              (ContactForm.parent f).

End ErrorDisplay.

(** ** Timers: whole executions *)

Module Executions.

(** Each time is at least [gap] after the time before it. *)
Fixpoint spaced (gap : Z) (ts : list Z) : Prop :=
  match ts with
  | a :: ((b :: _) as rest) => a + gap <= b /\ spaced gap rest
  | _ => True
  end.

(** The calls of the callback are spaced, and the window of the last one is
    either still open, its reset pending, or over. *)
Definition throttle_paced {W : Type} (limit now : Z)
           (s : Throttled.state Z W) : Prop :=
  spaced (Timers.delay limit) (Throttled.calls s)
  /\ ((Throttled.inThrottle s = false /\ Throttled.pending s = []
       /\ forall tl, last (Throttled.calls s) = Some tl ->
                     tl + Timers.delay limit <= now)
      \/ (Throttled.inThrottle s = true
          /\ exists tl, last (Throttled.calls s) = Some tl
                        /\ Throttled.pending s = [tl + Timers.delay limit])).

(** The debounced callback has been called for some of the arguments given
    so far, in their order; a pending timer is the one of the last. *)
Definition debounce_settled {A : Type} (s : Debounce.state A)
           (given : list A) : Prop :=
  (Debounce.pending s = [] /\ sublist (Debounce.calls s) given)
  \/ (exists i d a before,
        given = before ++ [a]
        /\ Debounce.timeout s = Some i
        /\ Debounce.pending s
           = [{| Debounce.id := i; Debounce.due := d; Debounce.args := a |}]
        /\ sublist (Debounce.calls s) before).

End Executions.

(** ** Theme preference *)

Module ThemeManager.

Record state : Type := {
  currentTheme : jsstring;                  (* this.currentTheme *)
  localStorage : gmap jsstring jsstring;
  data_theme : option jsstring              (* attribute of documentElement *)
}.

Definition applyTheme (theme : jsstring) (s : state) : state :=
  {| currentTheme := currentTheme s;
     localStorage := <[str "theme" := theme]> (localStorage s);
     data_theme := Some theme |}.

(** [localStorage.getItem('theme') || 'light']: a missing key gives [null]
    and an empty string is falsy. *)
Definition stored_theme (storage : gmap jsstring jsstring) : jsstring :=
  match storage !! str "theme" with
  | Some (c :: t) => c :: t
  | _ => str "light"
  end.

(** [new ThemeManager()] on a page with the given storage and attribute. *)
Definition construct (storage : gmap jsstring jsstring)
           (attribute : option jsstring) : state :=
  applyTheme (stored_theme storage)
    {| currentTheme := stored_theme storage;
       localStorage := storage;
       data_theme := attribute |}.

Definition toggleTheme (s : state) : state :=
  let theme :=
    if jsstring_eqb (currentTheme s) (str "light") then str "dark"
    else str "light" in
  applyTheme theme
    {| currentTheme := theme;
       localStorage := localStorage s;
       data_theme := data_theme s |}.

Fixpoint toggles (n : nat) (s : state) : state :=
  match n with
  | O => s
  | S n' => toggles n' (toggleTheme s)
  end.

(** The stored preference and the attribute of the document are the
    current theme, which is not the empty string. *)
Definition in_sync (s : state) : Prop :=
  localStorage s !! str "theme" = Some (currentTheme s)
  /\ data_theme s = Some (currentTheme s)
  /\ currentTheme s <> [].

End ThemeManager.

(** ** Visibility observers *)

Module Observers.

Record entry : Type := { target : nat; isIntersecting : bool }.

(** The element [x] changed to [v], the others as they were. *)
Definition update {V : Type} (x : nat) (v : V) (f : nat -> V) : nat -> V :=
  fun y => if Nat.eqb y x then v else f y.

(** The elements are known by a number; an observer has the set of its
    targets. *)
Record reveal_state : Type := {
  observed : gset nat;
  classes : nat -> DOMTokenList.t
}.

(** The callback of [animateOnScroll], for one entry. *)
Definition reveal (s : reveal_state) (e : entry) : reveal_state :=
  if isIntersecting e then
    {| observed := observed s ∖ {[target e]};
       classes :=
         update (target e)
                (DOMTokenList.add (str "animate-fade-in-up")
                                  (classes s (target e)))
                (classes s) |}
  else s.

Definition animateOnScroll (entries : list entry) (s : reveal_state)
  : reveal_state :=
  fold_left reveal entries s.

Record image : Type := {
  src : option jsstring;        (* the attribute src *)
  data_src : option jsstring    (* the attribute data-src *)
}.

Record lazy_state : Type := {
  watched : gset nat;
  images : nat -> image
}.

(** [img.src = img.dataset.src; img.removeAttribute('data-src')]: a missing
    attribute reads as [undefined], which is assigned as the string. *)
Definition load (img : image) : image :=
  {| src := Some (match data_src img with
                  | Some v => v
                  | None => str "undefined"
                  end);
     data_src := None |}.

(** The callback of [imageObserver], for one entry. *)
Definition lazy_load (s : lazy_state) (e : entry) : lazy_state :=
  if isIntersecting e then
    {| watched := watched s ∖ {[target e]};
       images := update (target e) (load (images s (target e))) (images s) |}
  else s.

Definition imageObserver (entries : list entry) (s : lazy_state) : lazy_state :=
  fold_left lazy_load entries s.

(** How often an element is reported as intersecting. *)
Definition hits (x : nat) (entries : list entry) : nat :=
  length (List.filter (fun e => isIntersecting e && bool_decide (target e = x))
                      entries).

End Observers.

(** * Properties *)

(** ** Token lists *)

Lemma jsstring_eqb_refl tok : jsstring_eqb tok tok = true.
Proof. unfold jsstring_eqb. by rewrite bool_decide_eq_true. Qed.

Lemma contains_app tok l1 l2 :
  DOMTokenList.contains tok (l1 ++ l2)
  = DOMTokenList.contains tok l1 || DOMTokenList.contains tok l2.
Proof. unfold DOMTokenList.contains. apply existsb_app. Qed.

Lemma contains_add_eq tok l :
  DOMTokenList.contains tok (DOMTokenList.add tok l) = true.
Proof.
  unfold DOMTokenList.add.
  destruct (DOMTokenList.contains tok l) eqn:E; [exact E|].
  rewrite contains_app, E. simpl. by rewrite jsstring_eqb_refl.
Qed.

Lemma contains_remove_eq tok l :
  DOMTokenList.contains tok (DOMTokenList.remove tok l) = false.
Proof.
  unfold DOMTokenList.contains, DOMTokenList.remove.
  induction l as [|x l IH]; [reflexivity|].
  simpl. destruct (jsstring_eqb tok x) eqn:E; simpl; [exact IH|].
  by rewrite E.
Qed.

Lemma remove_app tok l1 l2 :
  DOMTokenList.remove tok (l1 ++ l2)
  = DOMTokenList.remove tok l1 ++ DOMTokenList.remove tok l2.
Proof. unfold DOMTokenList.remove. apply List.filter_app. Qed.

Lemma remove_idem tok l :
  DOMTokenList.remove tok (DOMTokenList.remove tok l)
  = DOMTokenList.remove tok l.
Proof.
  unfold DOMTokenList.remove. induction l as [|x l IH]; [reflexivity|].
  simpl. destruct (jsstring_eqb tok x) eqn:E; simpl; [exact IH|].
  rewrite E. simpl. by rewrite IH.
Qed.

Lemma remove_add_eq tok l :
  DOMTokenList.remove tok (DOMTokenList.add tok l)
  = DOMTokenList.remove tok l.
Proof.
  unfold DOMTokenList.add. destruct (DOMTokenList.contains tok l); [reflexivity|].
  rewrite remove_app. simpl. rewrite jsstring_eqb_refl. simpl. apply app_nil_r.
Qed.

Lemma contains_toggle_force tok force l :
  DOMTokenList.contains tok (DOMTokenList.toggle_force tok force l) = force.
Proof.
  destruct force; simpl; [apply contains_add_eq | apply contains_remove_eq].
Qed.

(** ** Scroll thresholds *)

Lemma navbar_updateActiveLink s :
  Navigation.navbar (Navigation.updateActiveLink s) = Navigation.navbar s.
Proof. reflexivity. Qed.

Lemma scrolled_class s :
  DOMTokenList.contains (str "scrolled")
    (Navigation.navbar (Navigation.scroll_listener s))
  = (50 <? Navigation.scrollY s).
Proof.
  unfold Navigation.scroll_listener. rewrite navbar_updateActiveLink.
  unfold Navigation.handleScroll. simpl. apply contains_toggle_force.
Qed.

Lemma button_visible y b :
  ScrollToTop.is_visible (ScrollToTop.toggleButton y b) = (300 <? y).
Proof.
  unfold ScrollToTop.toggleButton, ScrollToTop.is_visible. simpl.
  destruct (300 <? y); reflexivity.
Qed.

(** C9.  After the scroll handlers have run at scroll offset y, the
    navigation bar carries the class "scrolled" exactly when y exceeds 50,
    and the scroll-to-top button is visible exactly when y exceeds 300 and
    hidden otherwise.  In particular, when the offset jumps from 0 to 400
    the button, hidden at 0, becomes visible and the bar, which did not
    carry "scrolled" at 0, gains it. *)
Theorem scroll_thresholds :
  forall (s : Navigation.state) (b : ScrollToTop.button),
    let y := Navigation.scrollY s in
    (DOMTokenList.contains (str "scrolled")
       (Navigation.navbar (Navigation.scroll_listener s)) = true <-> 50 < y)
    /\ (ScrollToTop.is_visible (ScrollToTop.toggleButton y b) = true
        <-> 300 < y)
    /\ ScrollToTop.visibility (ScrollToTop.toggleButton y b)
       = (if 300 <? y then str "visible" else str "hidden")
    /\ ScrollToTop.opacity (ScrollToTop.toggleButton y b)
       = (if 300 <? y then str "1" else str "0")
    /\ (let at0 := Navigation.scroll_listener (Navigation.set_scrollY 0 s) in
        let b0 := ScrollToTop.toggleButton 0 b in
        let at400 :=
          Navigation.scroll_listener (Navigation.set_scrollY 400 at0) in
        let b400 := ScrollToTop.toggleButton 400 b0 in
        DOMTokenList.contains (str "scrolled") (Navigation.navbar at0) = false
        /\ ScrollToTop.is_visible b0 = false
        /\ DOMTokenList.contains (str "scrolled") (Navigation.navbar at400)
           = true
        /\ ScrollToTop.is_visible b400 = true).
Proof.
  intros s b y.
  split; [rewrite scrolled_class; apply Z.ltb_lt|].
  split; [rewrite button_visible; apply Z.ltb_lt|].
  split; [reflexivity|]. split; [reflexivity|].
  cbv zeta. rewrite !scrolled_class, !button_visible.
  repeat split.
Qed.

(** ** Navigation: the active link *)

Lemma mark_mark a b link :
  Navigation.mark a (Navigation.mark b link) = Navigation.mark a link.
Proof.
  unfold Navigation.mark.
  cbn [Navigation.href Navigation.classList]. f_equal.
  assert (E : DOMTokenList.remove (str "active")
                (if bool_decide (Navigation.href link = Some (str "#" ++ b))
                 then DOMTokenList.add (str "active")
                        (DOMTokenList.remove (str "active")
                           (Navigation.classList link))
                 else DOMTokenList.remove (str "active")
                        (Navigation.classList link))
              = DOMTokenList.remove (str "active") (Navigation.classList link)).
  { case_bool_decide; [rewrite remove_add_eq|]; apply remove_idem. }
  by rewrite E.
Qed.

Lemma is_active_mark sec link :
  Navigation.is_active (Navigation.mark (Navigation.sec_id sec) link)
  = Navigation.targets sec link.
Proof.
  unfold Navigation.is_active, Navigation.mark, Navigation.targets. simpl.
  case_bool_decide; [apply contains_add_eq | apply contains_remove_eq].
Qed.

Lemma last_in_span_snoc pos secs sec :
  Navigation.last_in_span pos (secs ++ [sec])
  = if Navigation.in_span pos sec then Some sec
    else Navigation.last_in_span pos secs.
Proof. unfold Navigation.last_in_span. rewrite rev_app_distr. reflexivity. Qed.

(** The scan over the sections leaves the marks of the last section whose
    span holds the position. *)
Lemma scan_sections pos secs links :
  fold_left
    (fun links sec =>
       if Navigation.in_span pos sec
       then map (Navigation.mark (Navigation.sec_id sec)) links
       else links)
    secs links
  = match Navigation.last_in_span pos secs with
    | Some sec => map (Navigation.mark (Navigation.sec_id sec)) links
    | None => links
    end.
Proof.
  induction secs as [|sec secs IH] using rev_ind; [reflexivity|].
  rewrite fold_left_app, last_in_span_snoc. simpl.
  destruct (Navigation.in_span pos sec); [|exact IH].
  rewrite IH. destruct (Navigation.last_in_span pos secs); [|reflexivity].
  rewrite map_map. apply map_ext. intros link. apply mark_mark.
Qed.

Lemma find_snoc {A : Type} (p : A -> bool) (l : list A) (x : A) :
  find p (l ++ [x])
  = match find p l with
    | Some y => Some y
    | None => if p x then Some x else None
    end.
Proof.
  induction l as [|a l IH]; [reflexivity|].
  simpl. destruct (p a); [reflexivity | exact IH].
Qed.

(** Where the spans of the sections do not overlap, the first section that
    holds the position is also the last. *)
Lemma first_is_last_when_unique pos secs :
  (length (List.filter (Navigation.in_span pos) secs) <= 1)%nat ->
  Navigation.first_in_span pos secs = Navigation.last_in_span pos secs.
Proof.
  unfold Navigation.first_in_span.
  induction secs as [|sec secs IH] using rev_ind; [reflexivity|].
  rewrite last_in_span_snoc, List.filter_app, length_app. simpl.
  rewrite find_snoc.
  destruct (Navigation.in_span pos sec) eqn:E; simpl.
  - intros L.
    assert (N : List.filter (Navigation.in_span pos) secs = []).
    { destruct (List.filter (Navigation.in_span pos) secs); [done|].
      simpl in L. lia. }
    destruct (find (Navigation.in_span pos) secs) as [x|] eqn:F;
      [|reflexivity].
    apply find_some in F. destruct F as [I P].
    assert (In x (List.filter (Navigation.in_span pos) secs))
      by (apply filter_In; done).
    rewrite N in H. destruct H.
  - intros L. rewrite <- IH by lia.
    by destruct (find (Navigation.in_span pos) secs).
Qed.

(** C2, the claim as stated fails: on a page whose section "skills" lies
    inside its section "about", the position 100 lies in both spans; the
    first of the two is "about", and the active link after
    [updateActiveLink] is the one of "skills". *)
Lemma first_section_does_not_win :
  ~ Navigation.first_section_wins Navigation.nested_page.
Proof.
  unfold Navigation.first_section_wins. vm_compute. intros [E _]. discriminate.
Qed.

(** C2, amended.  For every scroll offset, after [updateActiveLink] the
    links marked active are exactly the links whose href targets the LAST
    section, in document order, whose span from top to top+height holds
    scrollY+100: every link has lost the class and those links have got it
    again, so there are as many active links as links to that section.
    When no section's span holds scrollY+100, the page is left as it
    was. *)
Theorem active_link_of_last_section :
  forall s : Navigation.state,
    match Navigation.last_in_span (Navigation.scrollY s + 100)
            (Navigation.sections s) with
    | Some sec =>
      Navigation.navLinks (Navigation.updateActiveLink s)
      = map (Navigation.mark (Navigation.sec_id sec)) (Navigation.navLinks s)
      /\ map Navigation.is_active
           (Navigation.navLinks (Navigation.updateActiveLink s))
         = map (Navigation.targets sec) (Navigation.navLinks s)
      /\ map Navigation.href
           (Navigation.navLinks (Navigation.updateActiveLink s))
         = map Navigation.href (Navigation.navLinks s)
      /\ length (List.filter Navigation.is_active
                   (Navigation.navLinks (Navigation.updateActiveLink s)))
         = length (List.filter (Navigation.targets sec)
                     (Navigation.navLinks s))
    | None => Navigation.updateActiveLink s = s
    end.
Proof.
  intros s. unfold Navigation.updateActiveLink. rewrite scan_sections.
  destruct (Navigation.last_in_span _ _) as [sec|]; [|by destruct s].
  cbn [Navigation.navLinks Navigation.set_navLinks].
  assert (A : map Navigation.is_active
                (map (Navigation.mark (Navigation.sec_id sec))
                   (Navigation.navLinks s))
              = map (Navigation.targets sec) (Navigation.navLinks s)).
  { rewrite map_map. apply map_ext. intros l. apply is_active_mark. }
  split; [reflexivity|]. split; [exact A|]. split.
  - rewrite map_map. reflexivity.
  - induction (Navigation.navLinks s) as [|l ls IH]; [reflexivity|].
    simpl. rewrite is_active_mark.
    injection A as _ A.
    destruct (Navigation.targets sec l); simpl; rewrite (IH A); reflexivity.
Qed.

(** ** Navigation: a click on a link *)

(** C8, the claim as stated fails: on the page with the open menu, a click
    on a link whose href is the bare "#" makes [querySelector] throw a
    SyntaxError, which nothing catches; the call ends there, and the menu
    stays open. *)
Lemma nav_link_click_bare_hash :
  Navigation.handleNavClick Navigation.about_document
    Navigation.bare_hash_link
    (Navigation.toggleMobileMenu Navigation.nested_page)
  = Throw (str "SyntaxError")
      (Navigation.toggleMobileMenu Navigation.nested_page)
  /\ DOMTokenList.contains (str "active")
       (Navigation.navMenu
          (Navigation.toggleMobileMenu Navigation.nested_page)) = true
  /\ ~ Navigation.click_closes_menu Navigation.about_document
         Navigation.bare_hash_link
         (Navigation.toggleMobileMenu Navigation.nested_page).
Proof.
  split; [reflexivity|]. split; [reflexivity|].
  intros (s' & E & _). discriminate E.
Qed.

(** C8, amended.  For every click on a navigation link the listener
    prevents the default navigation.  If the link's target selector matches
    an element, the viewport is asked to scroll smoothly to that element's
    top offset minus 80, and the mobile menu is closed afterwards; if it
    matches no element, no scroll is asked for, the call returns without an
    error, and the menu is closed as well.  If the href is no selector at
    all, [querySelector] throws a SyntaxError that the listener does not
    catch: no scroll is asked for, and the menu, like the rest of the page,
    is left as it was. *)
Theorem nav_link_click :
  forall (querySelector : jsstring -> Navigation.query_result)
         (link : Navigation.navlink) (e : Navigation.click_event)
         (s : Navigation.state),
    let r := Navigation.link_click_listener querySelector link e s in
    Navigation.defaultPrevented r.1 = true
    /\ match querySelector (Navigation.selector_of (Navigation.href link)) with
       | Navigation.QElement target =>
         exists s',
           r.2 = Normal s'
           /\ Navigation.scrolled_to s'
              = Some {| Navigation.top := Navigation.offsetTop target - 80;
                        Navigation.behavior := Navigation.smooth |}
           /\ Navigation.menu_closed s'
       | Navigation.QNull =>
         exists s',
           r.2 = Normal s'
           /\ Navigation.scrolled_to s' = Navigation.scrolled_to s
           /\ Navigation.scrollY s' = Navigation.scrollY s
           /\ Navigation.menu_closed s'
       | Navigation.QSyntaxError => r.2 = Throw (str "SyntaxError") s
       end.
Proof.
  intros querySelector link e s r.
  split; [reflexivity|].
  unfold r, Navigation.link_click_listener, Navigation.handleNavClick.
  cbn [snd].
  destruct (querySelector (Navigation.selector_of (Navigation.href link)))
    as [| |target]; [reflexivity| |].
  - eexists. split; [reflexivity|].
    split; [reflexivity|]. split; [reflexivity|].
    unfold Navigation.menu_closed, Navigation.closeMobileMenu.
    cbn [Navigation.navMenu Navigation.hamburger Navigation.body_overflow].
    rewrite !contains_remove_eq. done.
  - eexists. split; [reflexivity|].
    split; [reflexivity|].
    unfold Navigation.menu_closed, Navigation.closeMobileMenu.
    cbn [Navigation.navMenu Navigation.hamburger Navigation.body_overflow].
    rewrite !contains_remove_eq. done.
Qed.

(** On the page with the open menu, a click on the link to "#about" asks
    for a scroll to 560 and closes the menu. *)
Lemma nav_link_click_witness :
  exists s',
    (Navigation.link_click_listener Navigation.about_document
       {| Navigation.href := Some (str "#about");
          Navigation.classList := [str "nav-link"] |}
       {| Navigation.defaultPrevented := false |}
       (Navigation.toggleMobileMenu Navigation.nested_page)).2 = Normal s'
    /\ Navigation.scrolled_to s'
       = Some {| Navigation.top := 560;
                 Navigation.behavior := Navigation.smooth |}
    /\ Navigation.menu_closed s'.
Proof.
  exact (proj2 (nav_link_click Navigation.about_document
    {| Navigation.href := Some (str "#about");
       Navigation.classList := [str "nav-link"] |}
    {| Navigation.defaultPrevented := false |}
    (Navigation.toggleMobileMenu Navigation.nested_page))).
Defined.

(** ** Counter animation *)

Lemma run_snoc {num : Type} `{AnimationManager.Arith num} n target
      (c : AnimationManager.counter num) :
  AnimationManager.run (S n) target c
  = let c' := AnimationManager.run n target c in
    if AnimationManager.timer c' then AnimationManager.tick target c' else c'.
Proof.
  revert c. induction n as [|n IH]; intros c.
  - simpl. destruct (AnimationManager.timer c); reflexivity.
  - change (AnimationManager.run (S (S n)) target c)
      with (if AnimationManager.timer c
            then AnimationManager.run (S n) target
                   (AnimationManager.tick target c)
            else c).
    destruct (AnimationManager.timer c) eqn:E.
    + rewrite IH. cbv zeta.
      change (AnimationManager.run (S n) target c)
        with (if AnimationManager.timer c
              then AnimationManager.run n target
                     (AnimationManager.tick target c)
              else c).
      rewrite E. reflexivity.
    + cbv zeta.
      change (AnimationManager.run (S n) target c)
        with (if AnimationManager.timer c
              then AnimationManager.run n target
                     (AnimationManager.tick target c)
              else c).
      rewrite E. rewrite E. reflexivity.
Qed.

Lemma run_cleared {num : Type} `{AnimationManager.Arith num} n target
      (c : AnimationManager.counter num) :
  AnimationManager.timer c = false -> AnimationManager.run n target c = c.
Proof. intros E. destruct n; [reflexivity|]. simpl. by rewrite E. Qed.

Lemma run_plus {num : Type} `{AnimationManager.Arith num} n k target
      (c : AnimationManager.counter num) :
  AnimationManager.run (n + k) target c
  = AnimationManager.run k target (AnimationManager.run n target c).
Proof.
  revert c. induction n as [|n IH]; intros c; [reflexivity|].
  cbn [Nat.add AnimationManager.run].
  destruct (AnimationManager.timer c) eqn:E; [apply IH|].
  by rewrite run_cleared.
Qed.

(** Once a tick has run, the text and the interval go together: while the
    interval is set the text is the running one of the current value, and
    when it is cleared the text is the final one. *)
Lemma run_shows {num : Type} `{AnimationManager.Arith num} n target
      (c : AnimationManager.counter num) :
  AnimationManager.timer c = true ->
  let c' := AnimationManager.run (S n) target c in
  AnimationManager.textContent c'
  = if AnimationManager.timer c'
    then AnimationManager.running_text
           (AnimationManager.floor (AnimationManager.current c')) target
    else AnimationManager.final_text target.
Proof.
  intros T.
  assert (K : forall c0 : AnimationManager.counter num,
             let c1 := AnimationManager.tick target c0 in
             AnimationManager.textContent c1
             = if AnimationManager.timer c1
               then AnimationManager.running_text
                      (AnimationManager.floor (AnimationManager.current c1))
                      target
               else AnimationManager.final_text target).
  { intros c0. cbv zeta. unfold AnimationManager.tick.
    destruct (AnimationManager.geb _ _); reflexivity. }
  induction n as [|n IH].
  - cbn [AnimationManager.run]. rewrite T. apply K.
  - cbv zeta. rewrite run_snoc. cbv zeta in *.
    destruct (AnimationManager.timer (AnimationManager.run (S n) target c))
      eqn:E; [apply K|].
    cbv iota. rewrite IH, E. reflexivity.
Qed.

(** The value and the interval of a running counter are those of [count]. *)
Lemma count_run {num : Type} `{AnimationManager.Arith num} n target :
  forall c : AnimationManager.counter num,
    AnimationManager.timer c = true ->
    (AnimationManager.current (AnimationManager.run n target c),
     AnimationManager.timer (AnimationManager.run n target c))
    = AnimationManager.count n (AnimationManager.of_int target)
        (AnimationManager.div (AnimationManager.of_int target)
           (AnimationManager.of_int 60))
        (AnimationManager.current c).
Proof.
  induction n as [|n IH]; intros c T.
  - cbn. by rewrite T.
  - cbn [AnimationManager.run AnimationManager.count]. rewrite T.
    unfold AnimationManager.tick at 1 2.
    destruct (AnimationManager.geb _ _) eqn:G.
    + rewrite run_cleared by reflexivity. reflexivity.
    + rewrite IH by reflexivity. reflexivity.
Qed.

(** An interval that is set after [n] ticks was set after fewer. *)
Lemma timer_earlier {num : Type} `{AnimationManager.Arith num} n k target
      (c : AnimationManager.counter num) :
  (k <= n)%nat ->
  AnimationManager.timer (AnimationManager.run n target c) = true ->
  AnimationManager.timer (AnimationManager.run k target c) = true.
Proof.
  intros L T. replace n with (k + (n - k))%nat in T by lia.
  rewrite run_plus in T.
  destruct (AnimationManager.timer (AnimationManager.run k target c)) eqn:E;
    [reflexivity|].
  by rewrite run_cleared, E in T.
Qed.

Lemma In_upto n :
  forall from t,
    from <= t < from + Z.of_nat n -> In t (AnimationManager.upto n from).
Proof.
  induction n as [|n IH]; intros from t R; [lia|].
  cbn [AnimationManager.upto].
  destruct (Z.eq_dec from t) as [->|N]; [by left|].
  right. apply IH. lia.
Qed.

(** Every target from -100000 to 100000, run in double precision. *)
Lemma stops_in_time_checked :
  forallb AnimationManager.stops_in_time
          (AnimationManager.upto (Z.to_nat 200001) (-100000)) = true.
Proof. vm_compute. reflexivity. Qed.

Lemma stops_in_time_range t :
  -100000 <= t <= 100000 -> AnimationManager.stops_in_time t = true.
Proof.
  intros R. apply (proj1 (forallb_forall _ _) stops_in_time_checked).
  apply In_upto. rewrite Z2Nat.id by lia. lia.
Qed.

(** The interval of the double-precision counter, read off [count]. *)
Lemma binary64_timer target text n :
  AnimationManager.timer
    (AnimationManager.run n target
       (AnimationManager.animateCounter (num:=PrimFloat.float) text))
  = (AnimationManager.count n (AnimationManager.Number target)
       (PrimFloat.div (AnimationManager.Number target)
          (AnimationManager.Number 60))
       (AnimationManager.Number 0)).2.
Proof.
  pose proof (count_run n target
                (AnimationManager.animateCounter (num:=PrimFloat.float) text)
                eq_refl) as E.
  apply (f_equal snd) in E. exact E.
Qed.

(** C1, the claim as stated fails: counted up to the target 25 in double
    precision, the animation ends on its 60th tick, the interval cleared,
    on the text "25", where the rule of the specification gives "25+". *)
Lemma counter_25_ends_without_suffix :
  AnimationManager.timer
    (AnimationManager.run 60 25
       (AnimationManager.animateCounter (num:=PrimFloat.float) (str "25+")))
  = false
  /\ AnimationManager.textContent
       (AnimationManager.run 60 25
          (AnimationManager.animateCounter (num:=PrimFloat.float) (str "25+")))
     = str "25"
  /\ AnimationManager.spec_final_text 25 = str "25+"
  /\ AnimationManager.textContent
       (AnimationManager.run 60 25
          (AnimationManager.animateCounter (num:=PrimFloat.float) (str "25+")))
     <> AnimationManager.spec_final_text 25.
Proof. vm_compute. repeat split; discriminate. Qed.

(** C1, amended.  For every numeric stat element whose target integer is
    t, from -100000 to 100000, counted in the double-precision arithmetic
    of the script: the animated value reaches or exceeds t on the 61st tick
    at the latest, and for a positive t not before the 60th; from then on
    the interval is cleared and the text is exactly t, followed by "+"
    exactly when t is 3.  Whatever the arithmetic, and for every target
    that a script number holds exactly, a counter whose interval is cleared
    shows that final text.  So t=3 ends on "3+"
    (on the 61st tick: after 60 it still shows "2"), t=10 on "10" (while it
    runs it shows no suffix either, as after 30 ticks "5", where t=11 shows
    "5+": the threshold of the running suffix is strictly above 10), and
    t=25 on "25": the "+" of a target above 10 is shown while the counter
    runs ("24+" after 59 ticks) and is gone at the end. *)
Theorem counter_final_display :
  (forall (target : Z) (text : jsstring),
      -100000 <= target <= 100000 ->
      let start :=
        AnimationManager.animateCounter (num:=PrimFloat.float) text in
      (forall n : nat,
          (61 <= n)%nat ->
          AnimationManager.timer (AnimationManager.run n target start) = false
          /\ AnimationManager.textContent (AnimationManager.run n target start)
             = decimal target ++ (if target =? 3 then str "+" else str ""))
      /\ (0 < target ->
          forall n : nat,
            (n <= 59)%nat ->
            AnimationManager.timer (AnimationManager.run n target start)
            = true))
  /\ (forall (num : Type) (arith : AnimationManager.Arith num) (target : Z)
             (text : jsstring) (n : nat),
        Z.abs target < 2 ^ 53 ->
        let c := AnimationManager.run n target
                   (AnimationManager.animateCounter text) in
        AnimationManager.timer c = false ->
        AnimationManager.textContent c
        = decimal target ++ (if target =? 3 then str "+" else str ""))
  /\ (let shown (n : nat) (target : Z) (text : string) :=
        AnimationManager.textContent
          (AnimationManager.run n target
             (AnimationManager.animateCounter (num:=PrimFloat.float)
                (str text))) in
      shown 60%nat 3 "3+"%string = str "2"
      /\ shown 61%nat 3 "3+"%string = str "3+"
      /\ shown 30%nat 10 "10"%string = str "5"
      /\ shown 61%nat 10 "10"%string = str "10"
      /\ shown 30%nat 11 "11+"%string = str "5+"
      /\ shown 59%nat 25 "25+"%string = str "24+"
      /\ shown 61%nat 25 "25+"%string = str "25").
Proof.
  split; [|split].
  - intros target text R start.
    pose proof (stops_in_time_range target R) as S.
    unfold AnimationManager.stops_in_time in S. cbv zeta in S.
    apply andb_true_iff in S as [S1 S2]. apply negb_true_iff in S1.
    assert (T61 : AnimationManager.timer (AnimationManager.run 61 target start)
                  = false) by (unfold start; by rewrite binary64_timer).
    split.
    + intros n L. replace n with (61 + (n - 61))%nat by lia.
      rewrite run_plus, run_cleared by exact T61.
      split; [exact T61|].
      pose proof (run_shows 60 target start eq_refl) as E. cbv zeta in E.
      rewrite E, T61. reflexivity.
    + intros P n L. apply (timer_earlier 59 n); [exact L|].
      unfold start. rewrite binary64_timer.
      apply orb_true_iff in S2 as [S2|S2]; [|exact S2].
      apply Z.leb_le in S2. lia.
  - intros num arith target text n _ c T.
    destruct n as [|n]; [discriminate T|].
    pose proof (run_shows n target (AnimationManager.animateCounter text) eq_refl)
      as E.
    cbv zeta in E. fold c in E. rewrite E, T. reflexivity.
  - vm_compute. repeat split.
Qed.

(** The target 3, counted from the text "3+". *)
Lemma counter_final_display_witness :
  AnimationManager.timer
    (AnimationManager.run 61 3
       (AnimationManager.animateCounter (num:=PrimFloat.float) (str "3+")))
  = false
  /\ AnimationManager.textContent
       (AnimationManager.run 61 3
          (AnimationManager.animateCounter (num:=PrimFloat.float) (str "3+")))
     = decimal 3 ++ (if 3 =? 3 then str "+" else str "").
Proof.
  apply (proj1 (proj1 counter_final_display 3 (str "3+") ltac:(lia)) 61%nat).
  lia.
Defined.

(** ** Contact form: validation of a field *)

Lemma plus_match_spec cls k s :
  Regex.plus_match cls k s = true
  <-> exists a b, s = a ++ b /\ a <> [] /\ forallb cls a = true /\ k b = true.
Proof.
  induction s as [|c s IH].
  - simpl. split; [discriminate|].
    intros (a & b & E & N & _). destruct a; [done|discriminate].
  - simpl. rewrite andb_true_iff, orb_true_iff, IH. split.
    + intros [C [(a & b & E & N & F & K) | K]].
      * exists (c :: a), b. subst s. simpl. rewrite C, F. done.
      * exists [c], s. simpl. rewrite C. done.
    + intros (a & b & E & N & F & K).
      destruct a as [|x a]; [done|]. simpl in E. injection E as -> ->.
      simpl in F. apply andb_true_iff in F as [C F]. split; [exact C|].
      destruct a as [|y a]; [right; exact K|].
      left. exists (y :: a), b. done.
Qed.

Lemma lit_spec c (k : jsstring -> bool) s :
  match s with x :: s' => (x =? c) && k s' | [] => false end = true
  <-> exists s', s = c :: s' /\ k s' = true.
Proof.
  destruct s as [|x s]; [split; [discriminate | intros (? & ? & _); discriminate]|].
  rewrite andb_true_iff, Z.eqb_eq. split.
  - intros [-> K]. eauto.
  - intros (s' & E & K). injection E as -> ->. done.
Qed.

Lemma email_regex_shape v :
  Regex.test ContactForm.emailRegex v = true <-> ContactForm.email_shape v.
Proof.
  unfold ContactForm.emailRegex, ContactForm.email_shape.
  cbn [Regex.test]. rewrite plus_match_spec. split.
  - intros (l & r1 & -> & Nl & Fl & K1).
    apply lit_spec in K1 as (r2 & -> & K2).
    apply plus_match_spec in K2 as (d & r3 & -> & Nd & Fd & K3).
    apply lit_spec in K3 as (r4 & -> & K4).
    apply plus_match_spec in K4 as (t & r5 & -> & Nt & Ft & K5).
    destruct r5; [|discriminate]. rewrite app_nil_r.
    exists l, d, t. repeat split; try done.
    rewrite !forallb_app, Fl, Fd, Ft. reflexivity.
  - intros (l & d & t & -> & Nl & Nd & Nt & F).
    rewrite !forallb_app, !andb_true_iff in F. destruct F as (Fl & Fd & Ft).
    exists l, (64 :: d ++ 46 :: t). repeat split; try done.
    apply andb_true_iff. split; [reflexivity|].
    apply plus_match_spec. exists d, (46 :: t). repeat split; try done.
    apply andb_true_iff. split; [reflexivity|].
    apply plus_match_spec. exists t, []. rewrite app_nil_r. done.
Qed.

Lemma showFieldError_message f m1 m2 :
  ContactForm.showFieldError f m1 = ContactForm.showFieldError f m2 -> m1 = m2.
Proof.
  unfold ContactForm.showFieldError. intros E.
  injection E as E. apply app_inj_tail in E as [_ E]. by injection E.
Qed.

Lemma messages_differ : ContactForm.required_message <> ContactForm.email_message.
Proof. vm_compute. discriminate. Qed.

Lemma validateField_cases f :
  ContactForm.validateField f
  = match trim (ContactForm.value f) with
    | [] => (false, ContactForm.showFieldError f ContactForm.required_message)
    | _ :: _ =>
      if jsstring_eqb (ContactForm.type f) (str "email") then
        if Regex.test ContactForm.emailRegex (trim (ContactForm.value f))
        then (true, ContactForm.clearFieldError f)
        else (false, ContactForm.showFieldError f ContactForm.email_message)
      else (true, ContactForm.clearFieldError f)
    end.
Proof.
  unfold ContactForm.validateField, ContactForm.check.
  destruct (trim (ContactForm.value f)) as [|c v]; [reflexivity|].
  destruct (jsstring_eqb _ _); [|reflexivity].
  destruct (Regex.test _ _); reflexivity.
Qed.

(** C3.  For every form field, [validateField] returns invalid and shows
    the "required" message exactly when the trimmed value is empty.  For a
    field typed as email whose trimmed value is not empty, it returns valid
    exactly when that value matches the email pattern, which is to say
    when it has the shape local@domain.tld, and otherwise it is invalid
    with the email message, which differs from the "required" one.  A
    field of another type whose trimmed value is not empty is valid.  So
    "a@b.c" is valid and "not-an-email" is not, in an email field. *)
Theorem field_validation :
  forall f : ContactForm.field,
    let v := trim (ContactForm.value f) in
    (ContactForm.validateField f
     = (false, ContactForm.showFieldError f ContactForm.required_message)
     <-> v = [])
    /\ match v with
       | [] =>
         ContactForm.validateField f
         = (false, ContactForm.showFieldError f ContactForm.required_message)
       | _ :: _ =>
         if jsstring_eqb (ContactForm.type f) (str "email") then
           ((ContactForm.validateField f).1 = true
            <-> Regex.test ContactForm.emailRegex v = true)
           /\ (Regex.test ContactForm.emailRegex v = true
               <-> ContactForm.email_shape v)
           /\ ContactForm.validateField f
              = (if Regex.test ContactForm.emailRegex v
                 then (true, ContactForm.clearFieldError f)
                 else (false,
                       ContactForm.showFieldError f ContactForm.email_message))
         else
           ContactForm.validateField f = (true, ContactForm.clearFieldError f)
       end
    /\ ContactForm.required_message <> ContactForm.email_message
    /\ ContactForm.validateField (ContactForm.control "email" "a@b.c")
       = (true, ContactForm.clearFieldError (ContactForm.control "email" "a@b.c"))
    /\ ContactForm.validateField (ContactForm.control "email" "not-an-email")
       = (false,
          ContactForm.showFieldError (ContactForm.control "email" "not-an-email")
            ContactForm.email_message)
    /\ ContactForm.validateField (ContactForm.control "text" "not-an-email")
       = (true,
          ContactForm.clearFieldError (ContactForm.control "text" "not-an-email"))
    /\ ContactForm.validateField (ContactForm.control "text" "  ")
       = (false,
          ContactForm.showFieldError (ContactForm.control "text" "  ")
            ContactForm.required_message).
Proof.
  intros f v. rewrite validateField_cases. fold v.
  split; [|split].
  - destruct v as [|c v']; [done|]. split; [|discriminate].
    destruct (jsstring_eqb _ _); [|discriminate].
    destruct (Regex.test _ _); [discriminate|].
    intros E. apply (f_equal snd) in E. cbn [snd] in E.
    apply showFieldError_message in E.
    symmetry in E. destruct (messages_differ E).
  - destruct v as [|c v']; [reflexivity|].
    destruct (jsstring_eqb _ _); [|reflexivity].
    split; [|split; [apply email_regex_shape | reflexivity]].
    destruct (Regex.test _ _); simpl; split; done.
  - split; [exact messages_differ|]. repeat split.
Qed.

(** ** Contact form: the error element of a field *)

Lemma count_remove_first l :
  length (List.filter ContactForm.is_field_error (ContactForm.remove_first l))
  = pred (length (List.filter ContactForm.is_field_error l)).
Proof.
  induction l as [|n l IH]; [reflexivity|].
  simpl. destruct (ContactForm.is_field_error n) eqn:E; [reflexivity|].
  simpl. rewrite E. exact IH.
Qed.

Lemma clearFieldError_clean f :
  (ContactForm.count_errors f <= 1)%nat ->
  ContactForm.count_errors (ContactForm.clearFieldError f) = 0%nat
  /\ ContactForm.has_error_class (ContactForm.clearFieldError f) = false.
Proof.
  intros L. unfold ContactForm.count_errors, ContactForm.has_error_class,
    ContactForm.clearFieldError in *.
  cbn [ContactForm.parent ContactForm.classList] in *.
  rewrite count_remove_first, contains_remove_eq. split; [lia|reflexivity].
Qed.

Lemma showFieldError_single f message :
  (ContactForm.count_errors f <= 1)%nat ->
  ContactForm.count_errors (ContactForm.showFieldError f message) = 1%nat
  /\ ContactForm.has_error_class (ContactForm.showFieldError f message) = true.
Proof.
  intros L. destruct (clearFieldError_clean f L) as [C _].
  unfold ContactForm.count_errors, ContactForm.has_error_class,
    ContactForm.showFieldError in *.
  cbn [ContactForm.parent ContactForm.classList] in *.
  rewrite List.filter_app, length_app, C, contains_add_eq. done.
Qed.

Lemma single_error_step f op :
  ContactForm.single_error f ->
  ContactForm.single_error (ContactForm.apply_operation f op).
Proof.
  intros [L _].
  assert (S : forall g m, (ContactForm.count_errors g <= 1)%nat ->
            ContactForm.single_error (ContactForm.showFieldError g m)).
  { intros g m G. destruct (showFieldError_single g m G) as [C E].
    unfold ContactForm.single_error. rewrite C, E. split; [lia|done]. }
  assert (K : forall g, (ContactForm.count_errors g <= 1)%nat ->
            ContactForm.single_error (ContactForm.clearFieldError g)).
  { intros g G. destruct (clearFieldError_clean g G) as [C E].
    unfold ContactForm.single_error. rewrite C, E. split; [lia|].
    split; discriminate. }
  destruct op as [typed|message|]; simpl.
  - rewrite validateField_cases.
    assert (G : (ContactForm.count_errors (ContactForm.set_value typed f) <= 1)%nat)
      by exact L.
    destruct (trim _); [by apply S|].
    destruct (jsstring_eqb _ _); [|by apply K].
    destruct (Regex.test _ _); [by apply K | by apply S].
  - by apply S.
  - by apply K.
Qed.

(** C10.  Starting from a field that shows no error (no element of class
    "field-error" below its parent, no class "error" on the field), after
    any finite sequence of [validateField], [showFieldError] and
    [clearFieldError] on that field, the parent holds at most one element
    of class "field-error", and it holds exactly one if and only if the
    field carries the class "error". *)
Theorem single_error_invariant :
  forall (f : ContactForm.field) (ops : list ContactForm.operation),
    ContactForm.count_errors f = 0%nat ->
    ContactForm.has_error_class f = false ->
    let f' := fold_left ContactForm.apply_operation ops f in
    (ContactForm.count_errors f' <= 1)%nat
    /\ (ContactForm.count_errors f' = 1%nat
        <-> ContactForm.has_error_class f' = true).
Proof.
  intros f ops C E.
  assert (I : ContactForm.single_error f).
  { unfold ContactForm.single_error. rewrite C, E. split; [lia|].
    split; discriminate. }
  clear C E. revert f I. induction ops as [|op ops IH]; intros f I.
  - exact I.
  - simpl. apply IH. by apply single_error_step.
Qed.

(** An email field through a failed validation, an explicit error, a
    successful validation, a clearing and a validation of the empty value. *)
Lemma single_error_invariant_witness :
  let f' :=
    fold_left ContactForm.apply_operation
      [ContactForm.Validate (str "not-an-email");
       ContactForm.ShowError (str "again");
       ContactForm.Validate (str "a@b.c");
       ContactForm.ClearError;
       ContactForm.Validate (str "")]
      (ContactForm.control "email" "") in
  (ContactForm.count_errors f' <= 1)%nat
  /\ (ContactForm.count_errors f' = 1%nat
      <-> ContactForm.has_error_class f' = true).
Proof.
  apply (single_error_invariant (ContactForm.control "email" "")); reflexivity.
Defined.

(** ** Contact form: submission *)

(** The loop over the inputs validates every field and ends with the flag
    up exactly when every field was valid. *)
Lemma validate_inputs_spec fs flag :
  ContactForm.validate_inputs fs flag
  = (flag && forallb (fun x => (ContactForm.validateField x).1) fs,
     map (fun x => (ContactForm.validateField x).2) fs).
Proof.
  revert flag. induction fs as [|f fs IH]; intros flag.
  - simpl. by rewrite andb_true_r.
  - simpl. destruct (ContactForm.validateField f) as [ok f'] eqn:E.
    rewrite IH. simpl. f_equal.
    destruct ok, flag; simpl; reflexivity.
Qed.

Lemma handleFormSubmit_cases f :
  ContactForm.handleFormSubmit f
  = if ContactForm.all_valid f
    then ContactForm.sendEmail
           (ContactForm.fromEntries (ContactForm.entries (ContactForm.inputs f)))
           (ContactForm.validated f)
    else Normal (ContactForm.validated f).
Proof.
  unfold ContactForm.handleFormSubmit. rewrite validate_inputs_spec.
  reflexivity.
Qed.

(** [sendEmail] never returns the form as it got it: it throws or it leaves
    a timer behind. *)
Lemma sendEmail_leaves_a_trace data f :
  ContactForm.sendEmail data f <> Normal f.
Proof.
  unfold ContactForm.sendEmail.
  destruct (ContactForm.submitButton f); [|discriminate].
  destruct (ContactForm.mailtoLink data); [|discriminate].
  intros E. injection E as E. apply (f_equal ContactForm.timeouts) in E.
  simpl in E. apply (f_equal length) in E. rewrite length_app in E.
  simpl in E. lia.
Qed.

(** With a submit button on the form and data that encode, [sendEmail]
    navigates to the link, disables the button and leaves one timer. *)
Lemma sendEmail_navigates data f submit link :
  ContactForm.submitButton f = Some submit ->
  ContactForm.mailtoLink data = Some link ->
  ContactForm.sendEmail data f
  = Normal {| ContactForm.inputs := ContactForm.inputs f;
              ContactForm.submitButton :=
                Some {| ContactForm.innerHTML := ContactForm.sending_label;
                        ContactForm.disabled := true |};
              ContactForm.location_href := link;
              ContactForm.timeouts :=
                ContactForm.timeouts f
                ++ [(1000, ContactForm.RestoreForm
                             (ContactForm.innerHTML submit))] |}.
Proof.
  intros B L. unfold ContactForm.sendEmail. rewrite B, L. reflexivity.
Qed.

(** C4.  On every submit the handler validates every field of the form
    again, and calls [sendEmail] if and only if all fields are valid.  When
    some field is not valid it returns with the fields validated and
    nothing else done: the location, the submit button and the pending
    timers are what they were.  The location and the button change only
    inside [sendEmail]. *)
Theorem submission_gating :
  forall f : ContactForm.form,
    let data :=
      ContactForm.fromEntries (ContactForm.entries (ContactForm.inputs f)) in
    ContactForm.validate_inputs (ContactForm.inputs f) true
    = (ContactForm.all_valid f, ContactForm.inputs (ContactForm.validated f))
    /\ (ContactForm.all_valid f = true
        <-> ContactForm.handleFormSubmit f
            = ContactForm.sendEmail data (ContactForm.validated f))
    /\ (ContactForm.all_valid f = false
        <-> ContactForm.handleFormSubmit f = Normal (ContactForm.validated f))
    /\ ContactForm.location_href (ContactForm.validated f)
       = ContactForm.location_href f
    /\ ContactForm.submitButton (ContactForm.validated f)
       = ContactForm.submitButton f
    /\ ContactForm.timeouts (ContactForm.validated f) = ContactForm.timeouts f
    /\ match ContactForm.sendEmail data (ContactForm.validated f) with
       | Normal f' =>
         Some (ContactForm.location_href f') = ContactForm.mailtoLink data
         /\ ContactForm.submitButton f'
            = Some {| ContactForm.innerHTML := ContactForm.sending_label;
                      ContactForm.disabled := true |}
       | Throw _ f' =>
         ContactForm.location_href f' = ContactForm.location_href f
       end.
Proof.
  intros f data. rewrite handleFormSubmit_cases. fold data.
  split; [apply validate_inputs_spec|].
  split; [|split].
  - destruct (ContactForm.all_valid f); split; try done.
    intros E. symmetry in E. destruct (sendEmail_leaves_a_trace _ _ E).
  - destruct (ContactForm.all_valid f); split; try done.
    intros E. destruct (sendEmail_leaves_a_trace _ _ E).
  - split; [reflexivity|]. split; [reflexivity|]. split; [reflexivity|].
    unfold ContactForm.sendEmail.
    destruct (ContactForm.submitButton (ContactForm.validated f));
      [|reflexivity].
    destruct (ContactForm.mailtoLink data); [|reflexivity].
    split; reflexivity.
Qed.

(** ** Contact form: the mailto link *)

(** Linear arithmetic with division and remainder by constants. *)
Ltac Zify.zify_post_hook ::= Z.to_euclidean_division_equations.

(** Turn the boolean tests among the hypotheses into propositions. *)
Ltac bools :=
  repeat match goal with
  | H : _ && _ = true |- _ => apply andb_true_iff in H as [? ?]
  | H : _ || _ = true |- _ => apply orb_true_iff in H as [?|?]
  | H : _ || _ = false |- _ => apply orb_false_iff in H as [? ?]
  | H : _ && _ = false |- _ => apply andb_false_iff in H as [?|?]
  | H : negb _ = true |- _ => apply negb_true_iff in H
  | H : (_ <=? _) = true |- _ => apply Z.leb_le in H
  | H : (_ <=? _) = false |- _ => apply Z.leb_gt in H
  | H : (_ <? _) = true |- _ => apply Z.ltb_lt in H
  | H : (_ <? _) = false |- _ => apply Z.ltb_ge in H
  | H : (_ =? _) = true |- _ => apply Z.eqb_eq in H
  | H : (_ =? _) = false |- _ => apply Z.eqb_neq in H
  end.

Lemma hex_value_digit n :
  0 <= n < 16 -> URI.hex_value (URI.hex_digit n) = Some n.
Proof.
  intros R. unfold URI.hex_digit, URI.hex_value, URI.is_digit.
  destruct (n <? 10) eqn:E; bools.
  - replace ((48 <=? 48 + n) && (48 + n <=? 57)) with true
      by (symmetry; apply andb_true_iff; split; apply Z.leb_le; lia).
    f_equal. lia.
  - replace ((48 <=? 55 + n) && (55 + n <=? 57)) with false
      by (symmetry; apply andb_false_iff; right; apply Z.leb_gt; lia).
    replace ((65 <=? 55 + n) && (55 + n <=? 70)) with true
      by (symmetry; apply andb_true_iff; split; apply Z.leb_le; lia).
    f_equal. lia.
Qed.

Lemma unescape_escape_byte b rest :
  0 <= b < 256 ->
  URI.unescape (URI.escape_byte b ++ rest)
  = option_map (cons b) (URI.unescape rest).
Proof.
  intros R. unfold URI.escape_byte.
  cbn [app URI.unescape]. rewrite Z.eqb_refl.
  rewrite !hex_value_digit by lia.
  destruct (URI.unescape rest); [|reflexivity].
  simpl. do 2 f_equal. lia.
Qed.

Lemma unescape_escape_bytes bs rest :
  Forall (fun b => 0 <= b < 256) bs ->
  URI.unescape (concat (map URI.escape_byte bs) ++ rest)
  = option_map (app bs) (URI.unescape rest).
Proof.
  induction 1 as [|b bs R _ IH]; cbn [map concat].
  - simpl. by destruct (URI.unescape rest).
  - rewrite <- app_assoc, unescape_escape_byte by exact R.
    rewrite IH. by destruct (URI.unescape rest).
Qed.

Lemma utf8_bytes c :
  URI.scalar c = true -> Forall (fun b => 0 <= b < 256) (URI.utf8 c).
Proof.
  unfold URI.scalar, URI.is_surrogate, URI.utf8. intros S.
  destruct (c <? 128) eqn:E1;
    [|destruct (c <? 2048) eqn:E2; [|destruct (c <? 65536) eqn:E3]];
    bools; repeat constructor; lia.
Qed.

Lemma unreserved_ascii c :
  URI.unreserved c = true -> 0 <= c < 128 /\ c <> 37.
Proof.
  unfold URI.unreserved, URI.is_alpha, URI.is_digit, URI.is_mark.
  intros U. bools; lia.
Qed.

Lemma encode_unescape s :
  forall e, URI.encodeURIComponent s = Some e ->
            URI.unescape e = Some (concat (map URI.utf8 s)).
Proof.
  induction s as [|c s IH]; intros e E.
  - injection E as <-. reflexivity.
  - cbn [URI.encodeURIComponent] in E.
    destruct (URI.unreserved c) eqn:U.
    + destruct (URI.encodeURIComponent s) as [e'|]; [|discriminate].
      injection E as <-. apply unreserved_ascii in U as [R N].
      cbn [URI.unescape]. apply Z.eqb_neq in N. rewrite N.
      rewrite (IH e' eq_refl). cbn [map concat option_map].
      unfold URI.utf8. replace (c <? 128) with true by (symmetry; apply Z.ltb_lt; lia).
      reflexivity.
    + destruct (URI.scalar c) eqn:S; [|discriminate].
      destruct (URI.encodeURIComponent s) as [e'|]; [|discriminate].
      injection E as <-.
      rewrite unescape_escape_bytes by (by apply utf8_bytes).
      rewrite (IH e' eq_refl). reflexivity.
Qed.

(** Settle the comparisons of the goal that linear arithmetic decides. *)
Ltac compare :=
  repeat match goal with
  | |- context [?a <=? ?b] =>
    first [ replace (a <=? b) with true by (symmetry; apply Z.leb_le; lia)
          | replace (a <=? b) with false by (symmetry; apply Z.leb_gt; lia) ]
  | |- context [?a <? ?b] =>
    first [ replace (a <? b) with true by (symmetry; apply Z.ltb_lt; lia)
          | replace (a <? b) with false by (symmetry; apply Z.ltb_ge; lia) ]
  end.

Lemma utf8_decode_utf8 c rest :
  URI.scalar c = true ->
  URI.utf8_decode (URI.utf8 c ++ rest)
  = option_map (cons c) (URI.utf8_decode rest).
Proof.
  unfold URI.scalar, URI.is_surrogate, URI.utf8. intros S.
  destruct (c <? 128) eqn:E1;
    [|destruct (c <? 2048) eqn:E2; [|destruct (c <? 65536) eqn:E3]];
    cbn [app URI.utf8_decode]; cbv zeta.
  - bools; try (exfalso; lia); compare; reflexivity.
  - replace ((192 + c / 64 - 192) * 64 + (128 + c mod 64 - 128)) with c by lia.
    unfold URI.is_cont. bools; try (exfalso; lia); compare; reflexivity.
  - replace ((224 + c / 4096 - 224) * 4096 + (128 + (c / 64) mod 64 - 128) * 64
             + (128 + c mod 64 - 128)) with c by lia.
    unfold URI.is_cont, URI.scalar, URI.is_surrogate.
    bools; try (exfalso; lia); compare; reflexivity.
  - replace ((240 + c / 262144 - 240) * 262144
             + (128 + (c / 4096) mod 64 - 128) * 4096
             + (128 + (c / 64) mod 64 - 128) * 64 + (128 + c mod 64 - 128))
      with c by lia.
    unfold URI.is_cont, URI.scalar, URI.is_surrogate.
    bools; try (exfalso; lia); compare; reflexivity.
Qed.

Lemma utf8_decode_concat s :
  forallb URI.scalar s = true ->
  URI.utf8_decode (concat (map URI.utf8 s)) = Some s.
Proof.
  induction s as [|c s IH]; [reflexivity|].
  cbn [forallb map concat]. intros S. apply andb_true_iff in S as [Sc Ss].
  rewrite utf8_decode_utf8 by exact Sc. by rewrite IH.
Qed.

Lemma encode_total s :
  forallb URI.scalar s = true -> is_Some (URI.encodeURIComponent s).
Proof.
  induction s as [|c s IH]; [by eexists|].
  cbn [forallb URI.encodeURIComponent]. intros S.
  apply andb_true_iff in S as [Sc Ss]. destruct (IH Ss) as [e E].
  rewrite E, Sc. destruct (URI.unreserved c); by eexists.
Qed.

Lemma percent_decode_encode s e :
  forallb URI.scalar s = true ->
  URI.encodeURIComponent s = Some e -> URI.percent_decode e = Some s.
Proof.
  intros S E. unfold URI.percent_decode.
  rewrite (encode_unescape s e E). by apply utf8_decode_concat.
Qed.

Lemma hex_digit_char n :
  0 <= n < 16 -> URI.unreserved (URI.hex_digit n) = true.
Proof.
  intros R. unfold URI.hex_digit, URI.unreserved, URI.is_alpha, URI.is_digit.
  destruct (n <? 10) eqn:E; bools; try (exfalso; lia); compare; reflexivity.
Qed.

Lemma escape_bytes_chars bs :
  Forall (fun b => 0 <= b < 256) bs ->
  forallb URI.uri_char (concat (map URI.escape_byte bs)) = true.
Proof.
  induction 1 as [|b bs R _ IH]; [reflexivity|].
  cbn [map concat]. rewrite forallb_app, IH, andb_true_r.
  unfold URI.escape_byte, URI.uri_char. cbn [forallb].
  rewrite !hex_digit_char by lia. rewrite Z.eqb_refl, orb_true_r. reflexivity.
Qed.

Lemma encode_chars s :
  forall e, URI.encodeURIComponent s = Some e -> forallb URI.uri_char e = true.
Proof.
  induction s as [|c s IH]; intros e E.
  - by injection E as <-.
  - cbn [URI.encodeURIComponent] in E.
    destruct (URI.unreserved c) eqn:U.
    + destruct (URI.encodeURIComponent s) as [e'|]; [|discriminate].
      injection E as <-. cbn [forallb]. rewrite (IH e' eq_refl).
      unfold URI.uri_char. by rewrite U.
    + destruct (URI.scalar c) eqn:S; [|discriminate].
      destruct (URI.encodeURIComponent s) as [e'|]; [|discriminate].
      injection E as <-. rewrite forallb_app, (IH e' eq_refl), andb_true_r.
      apply escape_bytes_chars. by apply utf8_bytes.
Qed.

Lemma str_scalar (l : string) :
  forallb URI.scalar (str l) = true.
Proof.
  unfold str. induction (list_ascii_of_string l) as [|a r IH]; [reflexivity|].
  cbn [map forallb]. rewrite IH, andb_true_r.
  pose proof (N_ascii_bounded a) as B.
  unfold URI.scalar, URI.is_surrogate.
  assert (0 <= Z.of_N (N_of_ascii a) < 256) by lia.
  compare. reflexivity.
Qed.

(** The link of the specification's example. *)
Lemma example_link :
  ContactForm.mailtoLink ContactForm.example_data
  = Some (str "mailto:saikumarpolavaram@outlook.com?subject=Portfolio%20Contact%3A%20Hi&body=%0AName%3A%20A%0AEmail%3A%20a%40b.com%0ASubject%3A%20Hi%0A%0AMessage%3A%0ATest%0A%20%20%20%20").
Proof. vm_compute. reflexivity. Qed.

(** C5.  For any field values name, email, subject and message
    (well-formed strings: sequences of Unicode scalar values), the link that
    [sendEmail] builds is "mailto:" with the fixed recipient
    saikumarpolavaram@outlook.com, then "?subject=" and a component that is
    the percent-encoding of "Portfolio Contact: " followed by the subject
    value, then "&body=" and a component that is the percent-encoding of the
    template with the four values in the order name, email, subject,
    message.  The two components hold unreserved characters and "%" only,
    so that the link splits at "?subject=" and "&body=" in one way. *)
Theorem mailto_construction :
  forall (data : gmap jsstring jsstring) (name email subject message : jsstring),
    data !! str "name" = Some name ->
    data !! str "email" = Some email ->
    data !! str "subject" = Some subject ->
    data !! str "message" = Some message ->
    forallb URI.scalar (name ++ email ++ subject ++ message) = true ->
    exists esubject ebody : jsstring,
      ContactForm.mailtoLink data
      = Some (str "mailto:saikumarpolavaram@outlook.com?subject=" ++ esubject
              ++ str "&body=" ++ ebody)
      /\ URI.percent_decode esubject = Some (str "Portfolio Contact: " ++ subject)
      /\ URI.percent_decode ebody
         = Some (ContactForm.nl ++ str "Name: " ++ name ++ ContactForm.nl
                 ++ str "Email: " ++ email ++ ContactForm.nl
                 ++ str "Subject: " ++ subject ++ ContactForm.nl
                 ++ ContactForm.nl
                 ++ str "Message:" ++ ContactForm.nl
                 ++ message ++ ContactForm.nl ++ str "    ")
      /\ forallb URI.uri_char (esubject ++ ebody) = true.
Proof.
  intros data name email subject message Dn De Ds Dm S.
  rewrite !forallb_app, !andb_true_iff in S. destruct S as (Sn & Se & Ss & Sm).
  assert (St : forallb URI.scalar (ContactForm.subject_text data) = true).
  { unfold ContactForm.subject_text, ContactForm.prop. rewrite Ds.
    by rewrite forallb_app, str_scalar, Ss. }
  assert (Sb : forallb URI.scalar (ContactForm.body_text data) = true).
  { unfold ContactForm.body_text, ContactForm.prop. rewrite Dn, De, Ds, Dm.
    rewrite !forallb_app, !str_scalar, Sn, Se, Ss, Sm. reflexivity. }
  destruct (encode_total _ St) as [esubject Es].
  destruct (encode_total _ Sb) as [ebody Eb].
  exists esubject, ebody. unfold ContactForm.mailtoLink. rewrite Es, Eb.
  split; [reflexivity|].
  split.
  { rewrite (percent_decode_encode _ _ St Es).
    unfold ContactForm.subject_text, ContactForm.prop. by rewrite Ds. }
  split.
  { rewrite (percent_decode_encode _ _ Sb Eb).
    unfold ContactForm.body_text, ContactForm.prop.
    by rewrite Dn, De, Ds, Dm. }
  rewrite forallb_app, (encode_chars _ _ Es), (encode_chars _ _ Eb). reflexivity.
Qed.

(** The data of the example: name "A", email "a@b.com", subject "Hi",
    message "Test". *)
Lemma mailto_construction_witness :
  exists esubject ebody : jsstring,
    ContactForm.mailtoLink ContactForm.example_data
    = Some (str "mailto:saikumarpolavaram@outlook.com?subject=" ++ esubject
            ++ str "&body=" ++ ebody)
    /\ URI.percent_decode esubject = Some (str "Portfolio Contact: " ++ str "Hi")
    /\ URI.percent_decode ebody
       = Some (ContactForm.nl ++ str "Name: " ++ str "A" ++ ContactForm.nl
               ++ str "Email: " ++ str "a@b.com" ++ ContactForm.nl
               ++ str "Subject: " ++ str "Hi" ++ ContactForm.nl
               ++ ContactForm.nl
               ++ str "Message:" ++ ContactForm.nl
               ++ str "Test" ++ ContactForm.nl ++ str "    ")
    /\ forallb URI.uri_char (esubject ++ ebody) = true.
Proof.
  apply (mailto_construction ContactForm.example_data
           (str "A") (str "a@b.com") (str "Hi") (str "Test"));
    reflexivity.
Defined.

(** ** Throttle *)

(** The delay of a timer is never negative, is the timeout itself when
    that is a 32-bit integer that is not negative, and is no less than a
    timeout below 2^31. *)
Lemma delay_nonneg timeout : 0 <= Timers.delay timeout.
Proof. unfold Timers.delay. lia. Qed.

Lemma delay_32_bit timeout :
  0 <= timeout < 2 ^ 31 -> Timers.delay timeout = timeout.
Proof.
  unfold Timers.delay, Timers.ToInt32.
  change (2 ^ 31) with 2147483648. change (2 ^ 32) with 4294967296. lia.
Qed.

Lemma delay_covers timeout : timeout < 2 ^ 31 -> timeout <= Timers.delay timeout.
Proof.
  intros L. destruct (Z_lt_le_dec timeout 0) as [N|P].
  - pose proof (delay_nonneg timeout). lia.
  - rewrite delay_32_bit; lia.
Qed.

Lemma last_cons {B : Type} (x d : B) (l : list B) :
  List.last (x :: l) d = List.last l x.
Proof.
  revert x d. induction l as [|y l IH]; intros x d; [reflexivity|].
  change (List.last (y :: l) d = List.last (y :: l) x).
  by rewrite !IH.
Qed.

Section ThrottleFacts.
Context {A W : Type}.
Variable func : A -> W -> completion W.
Implicit Types (s : Throttled.state A W) (evs : list (Throttled.event A)).

(** While the window is open, up to the time the reset is due, every call
    is dropped and the reset cannot run. *)
Lemma throttle_in_window limit due evs :
  forall now s now' s',
    Throttled.inThrottle s = true ->
    Throttled.pending s = [due] ->
    Forall (fun e => Throttled.time e < due) evs ->
    Throttled.run func limit now s evs = Some (now', s') ->
    s' = s /\ forallb Throttled.is_invoke evs = true.
Proof.
  induction evs as [|e evs IH]; intros now s now' s' T P Wn R.
  - injection R as _ <-. done.
  - apply Forall_cons in Wn as [We Wn]. cbn [Throttled.run] in R.
    destruct e as [t a | t i]; cbn [Throttled.step Throttled.time] in R, We.
    + destruct (now <=? t); [|discriminate].
      unfold Throttled.wrapper in R. rewrite T in R. cbn [negb] in R.
      apply (IH _ _ _ _ T P Wn) in R. done.
    + rewrite P in R. destruct i as [|i]; [|discriminate].
      cbn in R. replace (due <=? t) with false in R
        by (symmetry; apply Z.leb_gt; lia).
      rewrite andb_false_r in R. discriminate.
Qed.

(** Calls at times that do not go back, made while the window is open, are
    an execution that ends at the time of the last of them. *)
Lemma throttle_invocations_run limit (rest : list (Z * A)) :
  forall now s,
    Throttled.inThrottle s = true ->
    ascending (now :: map fst rest) ->
    Throttled.run func limit now s (map Throttled.invoke rest)
    = Some (List.last (map fst rest) now, s).
Proof.
  induction rest as [|[t a] rest IH]; intros now s T Asc; [reflexivity|].
  cbn [map fst] in Asc. destruct Asc as [L Asc].
  cbn [map Throttled.run Throttled.invoke Throttled.step fst snd].
  replace (now <=? t) with true by (symmetry; apply Z.leb_le; lia).
  unfold Throttled.wrapper. rewrite T. cbn [negb].
  rewrite (IH t s T Asc). by rewrite last_cons.
Qed.

Lemma throttled_run_app limit evs1 evs2 :
  forall now s,
    Throttled.run func limit now s (evs1 ++ evs2)
    = match Throttled.run func limit now s evs1 with
      | Some (now', s') => Throttled.run func limit now' s' evs2
      | None => None
      end.
Proof.
  induction evs1 as [|e evs1 IH]; intros now s; [reflexivity|].
  cbn [app Throttled.run].
  destruct (Throttled.step func limit now s e) as [[now1 s1]|];
    [apply IH|reflexivity].
Qed.

Lemma ascending_last (ts : list Z) :
  forall now T, ascending ((now :: ts) ++ [T]) ->
    ascending (now :: ts) /\ List.last ts now <= T.
Proof.
  induction ts as [|b ts IH]; intros now T Asc.
  - cbn in *. lia.
  - change (ascending (now :: (b :: ts) ++ [T])) in Asc.
    cbn [app ascending] in Asc. destruct Asc as [L Asc].
    destruct (IH b T Asc) as [Asc' La].
    rewrite last_cons. split; [|exact La]. split; [exact L | exact Asc'].
Qed.


End ThrottleFacts.



(** ** Debounce *)

Section DebounceFacts.
Context {A : Type}.
Implicit Types (s : Debounce.state A) (evs : list (Debounce.event A)).

Lemma invocations_invoke (cs : list (Z * A)) :
  Debounce.invocations (map Debounce.invoke cs) = cs.
Proof.
  induction cs as [|[t a] cs IH]; [reflexivity|].
  cbn. unfold Debounce.invocations in IH. by rewrite IH.
Qed.

Lemma invocations_app evs1 evs2 :
  Debounce.invocations (evs1 ++ evs2)
  = Debounce.invocations evs1 ++ Debounce.invocations evs2.
Proof. unfold Debounce.invocations. apply omap_app. Qed.

Lemma debounce_run_app wait evs1 evs2 :
  forall now s,
    Debounce.run wait now s (evs1 ++ evs2)
    = match Debounce.run wait now s evs1 with
      | Some (now', s') => Debounce.run wait now' s' evs2
      | None => None
      end.
Proof.
  induction evs1 as [|e evs1 IH]; intros now s; [reflexivity|].
  cbn [app Debounce.run].
  destruct (Debounce.step wait now s e) as [[now1 s1]|]; [apply IH|reflexivity].
Qed.

(** A call of the wrapper, with no timer or its own last timer pending,
    leaves the timer of that call alone on the queue. *)
Lemma wrapper_arms wait t a s :
  Debounce.pending s = [] \/ (exists last, Debounce.armed wait last s) ->
  Debounce.armed wait (t, a) (Debounce.wrapper wait t a s)
  /\ Debounce.calls (Debounce.wrapper wait t a s) = Debounce.calls s.
Proof.
  intros Q. split; [|reflexivity].
  exists (Debounce.next_id s). split; [reflexivity|].
  unfold Debounce.wrapper. cbn [Debounce.pending fst snd].
  destruct Q as [P | (last & i & T & P)]; rewrite P; [reflexivity|].
  rewrite T. unfold Debounce.clearTimeout. cbn [List.filter Debounce.id].
  rewrite bool_decide_eq_true_2 by reflexivity. reflexivity.
Qed.

(** Once the timer of the last call has run, at or after its due time,
    nothing can follow: no timer is left, and a further call would come at
    least [wait] after the last one. *)
Lemma debounce_after_firing wait evs :
  forall now s now' s' last,
    Debounce.pending s = [] ->
    last + Z.max 0 wait <= now ->
    close_together wait (last :: map fst (Debounce.invocations evs)) ->
    Debounce.run wait now s evs = Some (now', s') ->
    evs = [].
Proof.
  intros now s now' s' last P D C R.
  destruct evs as [|[t a | t i] evs]; [reflexivity| |].
  - exfalso. cbn [Debounce.run Debounce.step] in R.
    destruct (now <=? t) eqn:L; [|discriminate]. apply Z.leb_le in L.
    cbn in C. destruct C as [C _]. lia.
  - exfalso. cbn [Debounce.run Debounce.step] in R. rewrite P in R.
    discriminate.
Qed.

(** From a state with the timer of the last call pending: the events are
    calls, each of which replaces the timer, and then at most the run of
    the timer of the last of them, not before it is due. *)
Lemma debounce_armed_run wait evs :
  forall now s now' s' (last : Z * A),
    Debounce.armed wait last s ->
    close_together wait (last.1 :: map fst (Debounce.invocations evs)) ->
    Debounce.run wait now s evs = Some (now', s') ->
    let last' := List.last (Debounce.invocations evs) last in
    (evs = map Debounce.invoke (Debounce.invocations evs)
     /\ Debounce.armed wait last' s'
     /\ Debounce.calls s' = Debounce.calls s)
    \/ (exists T,
          evs = map Debounce.invoke (Debounce.invocations evs)
                ++ [Debounce.Timer T 0]
          /\ last'.1 + Z.max 0 wait <= T
          /\ now' = T
          /\ Debounce.calls s' = Debounce.calls s ++ [last'.2]
          /\ Debounce.pending s' = []).
Proof.
  induction evs as [|e evs IH]; intros now s now' s' last Ar C R.
  - injection R as <- <-. left. done.
  - destruct e as [t a | T j].
    + cbn [Debounce.run Debounce.step] in R.
      destruct (now <=? t) eqn:L; [|discriminate].
      destruct (wrapper_arms wait t a s) as [Ar' Ca]; [right; eauto|].
      change (Debounce.invocations (Debounce.Invoke t a :: evs))
        with ((t, a) :: Debounce.invocations evs) in *.
      cbn [map fst] in C. destruct C as [_ C].
      specialize (IH _ _ _ _ (t, a) Ar' C R). cbv zeta in IH.
      cbv zeta. rewrite last_cons. cbn [map].
      destruct IH as [(E & Ar'' & Ca'') | (T & E & D & N & Ca'' & P)].
      * left. split; [|split].
        -- unfold Debounce.invoke at 1. cbn [fst snd]. by rewrite <- E.
        -- exact Ar''.
        -- by rewrite Ca'', Ca.
      * right. exists T.
        split; [|split; [|split; [|split]]];
          try done; try (by rewrite Ca'', Ca).
        unfold Debounce.invoke at 1. cbn [fst snd app]. by rewrite <- E.
    + change (Debounce.invocations (Debounce.Timer T j :: evs))
        with (Debounce.invocations evs) in *.
      destruct Ar as (i & Ti & P).
      cbn [Debounce.run Debounce.step] in R. rewrite P in R.
      destruct j as [|j]; [|discriminate]. cbn [lookup list_lookup] in R.
      cbn [Debounce.due] in R.
      destruct ((now <=? T) && (last.1 + Z.max 0 wait <=? T)) eqn:G;
        [|discriminate].
      apply andb_true_iff in G as [G1 G2]. apply Z.leb_le in G2.
      assert (E : evs = []).
      { eapply (debounce_after_firing wait evs T _ now' s' last.1);
          [| exact G2 | exact C | exact R].
        unfold Debounce.later, Debounce.take. cbn [Debounce.pending].
        rewrite P. reflexivity. }
      subst evs. injection R as <- <-. right. exists T.
      cbn. rewrite P. done.
Qed.

(** Calls at times that do not go back all run, and leave the timer of the
    last of them pending. *)
Lemma debounce_invocations_run wait (cs : list (Z * A)) :
  forall now s t a,
    Debounce.pending s = [] \/ (exists last, Debounce.armed wait last s) ->
    ascending (now :: map fst (cs ++ [(t, a)])) ->
    exists s',
      Debounce.run wait now s (map Debounce.invoke (cs ++ [(t, a)]))
      = Some (t, s')
      /\ Debounce.armed wait (t, a) s'
      /\ Debounce.calls s' = Debounce.calls s.
Proof.
  induction cs as [|[t1 a1] cs IH]; intros now s t a Q Asc.
  - cbn in Asc. destruct Asc as [L _].
    cbn [app map Debounce.run Debounce.invoke Debounce.step fst snd].
    replace (now <=? t) with true by (symmetry; apply Z.leb_le; lia).
    eexists. split; [reflexivity|]. by apply wrapper_arms.
  - change (ascending (now :: t1 :: map fst (cs ++ [(t, a)]))) in Asc.
    destruct Asc as [L Asc].
    cbn [app map Debounce.run Debounce.invoke Debounce.step fst snd].
    replace (now <=? t1) with true by (symmetry; apply Z.leb_le; lia).
    destruct (wrapper_arms wait t1 a1 s Q) as [Ar Ca].
    destruct (IH t1 (Debounce.wrapper wait t1 a1 s) t a) as (s' & R & Ar' & Ca');
      [right; eauto | exact Asc |].
    exists s'. split; [exact R|]. split; [exact Ar'|]. by rewrite Ca', Ca.
Qed.

(** The quiet period, for a delay that the timer takes as it is.  Let the
    debounced wrapper be called N >= 1 times, every call less than the
    delay after the call before it, from a state with no timer pending.
    Then in every execution the events are exactly these calls, followed by
    at most one run of a timer: either the callback has not fired yet and
    the timer of the last call is pending, or it has fired exactly once,
    with the arguments of the last call, not before the full delay after
    that last call, and no timer is left.  And the second case does happen:
    once the delay after the last call is over, the timer runs and the
    callback fires. *)
Lemma debounce_quiet_period :
  forall (wait now : Z) (s0 : Debounce.state A) (cs : list (Z * A))
         (t : Z) (a : A),
    Debounce.pending s0 = [] ->
    close_together wait (map fst (cs ++ [(t, a)])) ->
    (forall evs now' s',
        Debounce.invocations evs = cs ++ [(t, a)] ->
        Debounce.run wait now s0 evs = Some (now', s') ->
        (evs = map Debounce.invoke (cs ++ [(t, a)])
         /\ Debounce.calls s' = Debounce.calls s0
         /\ Debounce.armed wait (t, a) s')
        \/ (exists T,
              evs = map Debounce.invoke (cs ++ [(t, a)])
                    ++ [Debounce.Timer T 0]
              /\ t + wait <= T
              /\ Debounce.calls s' = Debounce.calls s0 ++ [a]
              /\ Debounce.pending s' = []))
    /\ (ascending (now :: map fst (cs ++ [(t, a)])) ->
        forall T, t + Z.max 0 wait <= T ->
          exists s',
            Debounce.run wait now s0
              (map Debounce.invoke (cs ++ [(t, a)]) ++ [Debounce.Timer T 0])
            = Some (T, s')
            /\ Debounce.calls s' = Debounce.calls s0 ++ [a]
            /\ Debounce.pending s' = []).
Proof.
  intros wait now s0 cs t a P C. split.
  - intros evs now' s' I R.
    destruct evs as [|[t1 a1 | T j] evs].
    + destruct cs; discriminate.
    + cbn [Debounce.run Debounce.step] in R.
      destruct (now <=? t1); [|discriminate].
      destruct (wrapper_arms wait t1 a1 s0) as [Ar Ca]; [by left|].
      change (Debounce.invocations (Debounce.Invoke t1 a1 :: evs))
        with ((t1, a1) :: Debounce.invocations evs) in I.
      rewrite <- I in C. cbn [map fst] in C.
      pose proof (debounce_armed_run wait evs _ _ _ _ (t1, a1) Ar C R) as H.
      cbv zeta in H.
      assert (La : List.last (Debounce.invocations evs) (t1, a1) = (t, a)).
      { rewrite <- (last_cons _ (t, a)), I. apply last_last. }
      rewrite La in H. rewrite <- I. cbn [map]. unfold Debounce.invoke at 1 3.
      cbn [fst snd] in *.
      destruct H as [(E & Ar' & Ca') | (T & E & D & _ & Ca' & P')].
      * left. rewrite <- E, Ca', Ca. done.
      * right. exists T. rewrite Ca', Ca.
        split; [cbn [app]; by rewrite <- E|].
        split; [lia|]. done.
    + cbn [Debounce.run Debounce.step] in R. rewrite P in R. discriminate.
  - intros Asc T D.
    destruct (debounce_invocations_run wait cs now s0 t a) as (s1 & R & Ar & Ca);
      [by left | exact Asc |].
    rewrite debounce_run_app, R.
    destruct Ar as (i & Ti & P1).
    cbn [Debounce.run Debounce.step]. rewrite P1.
    cbn [lookup list_lookup Debounce.due fst snd].
    replace (t <=? T) with true by (symmetry; apply Z.leb_le; lia).
    replace (t + Z.max 0 wait <=? T) with true
      by (symmetry; apply Z.leb_le; lia).
    cbn [andb]. eexists. split; [reflexivity|].
    unfold Debounce.later, Debounce.take.
    cbn [Debounce.calls Debounce.pending Debounce.args fst snd].
    rewrite P1, Ca. done.
Qed.

End DebounceFacts.

(** ** Debounce: every delay *)

Lemma close_together_wider wait wait' ts :
  wait <= wait' -> close_together wait ts -> close_together wait' ts.
Proof.
  intros L. induction ts as [|a ts IH]; [done|].
  destruct ts as [|b ts]; [done|].
  cbn [close_together]. intros [C1 C2]. split; [lia|]. by apply IH.
Qed.

Section DebouncedFacts.
Context {A : Type}.

(** The debounce is the one of the delay as the timer takes it. *)
Lemma debounced_run wait (evs : list (Debounce.event A)) :
  forall now (s : Debounce.state A),
    Debounced.run wait now s evs
    = Debounce.run (Timers.delay wait) now s evs.
Proof.
  induction evs as [|e evs IH]; intros now s; [reflexivity|].
  cbn [Debounced.run Debounce.run].
  assert (E : Debounced.step wait now s e
              = Debounce.step (Timers.delay wait) now s e).
  { destruct e as [t a | t i]; [|reflexivity].
    cbn [Debounced.step Debounce.step].
    unfold Debounced.wrapper, Debounce.wrapper.
    by rewrite (Z.max_r 0 (Timers.delay wait)) by apply delay_nonneg. }
  rewrite E.
  destruct (Debounce.step _ now s e) as [[now1 s1]|]; [apply IH|reflexivity].
Qed.

Lemma debounced_armed wait (last : Z * A) (s : Debounce.state A) :
  Debounce.armed (Timers.delay wait) last s -> Debounced.armed wait last s.
Proof.
  intros (i & T & P). exists i. split; [exact T|].
  by rewrite (Z.max_r 0 (Timers.delay wait)) in P by apply delay_nonneg.
Qed.

(** C7, amended.  For every wrapped callback and every delay below 2^31:
    let the debounced wrapper be called N >= 1 times, every call less than
    the delay after the call before it, from a state with no timer pending.
    Then in every execution the events are exactly these calls, followed by
    at most one run of a timer: either the callback has not fired yet and
    the timer of the last call is pending, or it has fired exactly once,
    with the arguments of the last call, not before the full delay after
    that last call, and no timer is left.  And the second case does happen:
    once the delay after the last call is over, the timer runs and the
    callback fires. *)
Theorem debounce_last_call :
  forall (wait now : Z) (s0 : Debounce.state A) (cs : list (Z * A))
         (t : Z) (a : A),
    wait < 2 ^ 31 ->
    Debounce.pending s0 = [] ->
    close_together wait (map fst (cs ++ [(t, a)])) ->
    (forall evs now' s',
        Debounce.invocations evs = cs ++ [(t, a)] ->
        Debounced.run wait now s0 evs = Some (now', s') ->
        (evs = map Debounce.invoke (cs ++ [(t, a)])
         /\ Debounce.calls s' = Debounce.calls s0
         /\ Debounced.armed wait (t, a) s')
        \/ (exists T,
              evs = map Debounce.invoke (cs ++ [(t, a)])
                    ++ [Debounce.Timer T 0]
              /\ t + wait <= T
              /\ Debounce.calls s' = Debounce.calls s0 ++ [a]
              /\ Debounce.pending s' = []))
    /\ (ascending (now :: map fst (cs ++ [(t, a)])) ->
        forall T, t + Timers.delay wait <= T ->
          exists s',
            Debounced.run wait now s0
              (map Debounce.invoke (cs ++ [(t, a)]) ++ [Debounce.Timer T 0])
            = Some (T, s')
            /\ Debounce.calls s' = Debounce.calls s0 ++ [a]
            /\ Debounce.pending s' = []).
Proof.
  intros wait now s0 cs t a B P C.
  pose proof (delay_covers wait B) as Le.
  pose proof (delay_nonneg wait) as Nn.
  destruct (debounce_quiet_period (Timers.delay wait) now s0 cs t a P
              (close_together_wider _ _ _ Le C)) as [Safe Live].
  split.
  - intros evs now' s' I R. rewrite debounced_run in R.
    destruct (Safe evs now' s' I R) as [(E & Ca & Ar) | (T & E & D & Ca & Pe)].
    + left. split; [exact E|]. split; [exact Ca|]. by apply debounced_armed.
    + right. exists T. split; [exact E|]. split; [lia|]. done.
  - intros Asc T D. rewrite debounced_run. apply Live; [exact Asc|]. lia.
Qed.

End DebouncedFacts.

(** C7, the claim as stated fails: a delay of 2^31 is wrapped to a negative
    timeout and so to no delay at all.  Of two calls 100 apart, far less
    than the delay, each has its timer run before the next event, and the
    callback fires for both. *)
Lemma debounce_fires_for_every_call :
  option_map (fun p : Z * Debounce.state Z => Debounce.calls p.2)
    (Debounced.run 2147483648 0 Debounce.initial
       [Debounce.Invoke 0 1; Debounce.Timer 5 0;
        Debounce.Invoke 100 2; Debounce.Timer 105 0])
  = Some [1; 2]
  /\ ~ Debounced.fires_once_for_last_call (A:=Z) 2147483648.
Proof.
  split; [reflexivity|]. intros C.
  specialize (C 0 Debounce.initial [(0, 1)] 100 2
                [Debounce.Invoke 0 1; Debounce.Timer 5 0;
                 Debounce.Invoke 100 2; Debounce.Timer 105 0]
                105 _ eq_refl ltac:(simpl; lia) eq_refl eq_refl).
  destruct C as [C|C]; discriminate C.
Qed.

(** Three calls 100 and 200 apart under a delay of 250: the callback fires
    once, for the third, when its timer runs at 550. *)
Lemma debounce_last_call_witness :
  exists s',
    Debounced.run 250 0 (Debounce.initial (A:=Z))
      (map Debounce.invoke ([(0, 1); (100, 2)] ++ [(300, 3)])
       ++ [Debounce.Timer 550 0])
    = Some (550, s')
    /\ Debounce.calls s' = Debounce.calls (Debounce.initial (A:=Z)) ++ [3]
    /\ Debounce.pending s' = [].
Proof.
  apply (proj2 (debounce_last_call 250 0 (Debounce.initial (A:=Z))
                  [(0, 1); (100, 2)] 300 3 ltac:(lia) eq_refl
                  ltac:(simpl; lia))).
  - simpl. lia.
  - vm_compute. discriminate.
Defined.

(** * Further properties *)

(** ** Navigation: the mobile menu *)

Lemma jsstring_eqb_eq a b : jsstring_eqb a b = true <-> a = b.
Proof. unfold jsstring_eqb. apply bool_decide_eq_true. Qed.

Lemma contains_remove_ne tok tok' l :
  tok <> tok' ->
  DOMTokenList.contains tok (DOMTokenList.remove tok' l)
  = DOMTokenList.contains tok l.
Proof.
  intros N. unfold DOMTokenList.contains, DOMTokenList.remove.
  induction l as [|x l IH]; [reflexivity|].
  simpl. destruct (jsstring_eqb tok' x) eqn:E; simpl.
  - apply jsstring_eqb_eq in E. subst x.
    destruct (jsstring_eqb tok tok') eqn:F; [|exact IH].
    apply jsstring_eqb_eq in F. done.
  - by rewrite IH.
Qed.

Lemma contains_add_ne tok tok' l :
  tok <> tok' ->
  DOMTokenList.contains tok (DOMTokenList.add tok' l)
  = DOMTokenList.contains tok l.
Proof.
  intros N. unfold DOMTokenList.add.
  destruct (DOMTokenList.contains tok' l); [reflexivity|].
  rewrite contains_app. simpl.
  destruct (jsstring_eqb tok tok') eqn:F.
  - apply jsstring_eqb_eq in F. done.
  - by rewrite !orb_false_r.
Qed.

Lemma contains_toggle tok l :
  DOMTokenList.contains tok (DOMTokenList.toggle tok l)
  = negb (DOMTokenList.contains tok l).
Proof.
  unfold DOMTokenList.toggle.
  destruct (DOMTokenList.contains tok l) eqn:E; simpl.
  - apply contains_remove_eq.
  - apply contains_add_eq.
Qed.

Lemma closeMobileMenu_consistent s :
  NavigationEvents.menu_consistent (Navigation.closeMobileMenu s)
  /\ NavigationEvents.menu_open (Navigation.closeMobileMenu s) = false.
Proof.
  unfold NavigationEvents.menu_consistent, NavigationEvents.menu_open,
    Navigation.closeMobileMenu.
  cbn [Navigation.navMenu Navigation.hamburger Navigation.body_overflow].
  rewrite !contains_remove_eq. done.
Qed.

Lemma toggleMobileMenu_consistent s :
  NavigationEvents.menu_consistent s ->
  NavigationEvents.menu_consistent (Navigation.toggleMobileMenu s)
  /\ NavigationEvents.menu_open (Navigation.toggleMobileMenu s)
     = negb (NavigationEvents.menu_open s).
Proof.
  unfold NavigationEvents.menu_consistent, NavigationEvents.menu_open,
    Navigation.toggleMobileMenu.
  cbn [Navigation.navMenu Navigation.hamburger Navigation.body_overflow].
  intros [H _]. rewrite !contains_toggle, H. done.
Qed.

Lemma document_click_consistent inside s :
  NavigationEvents.menu_consistent s ->
  NavigationEvents.menu_consistent
    (NavigationEvents.document_click_listener inside s).
Proof.
  intros C. unfold NavigationEvents.document_click_listener.
  destruct (negb inside && _); [apply closeMobileMenu_consistent | exact C].
Qed.

Lemma handleNavClick_consistent querySelector link s :
  NavigationEvents.menu_consistent s ->
  NavigationEvents.menu_consistent
    (NavigationEvents.after (Navigation.handleNavClick querySelector link s)).
Proof.
  intros C. unfold Navigation.handleNavClick.
  destruct (querySelector _); cbn [NavigationEvents.after];
    [exact C | apply closeMobileMenu_consistent..].
Qed.

Lemma dispatch_consistent querySelector s e :
  NavigationEvents.menu_consistent s ->
  NavigationEvents.menu_consistent (NavigationEvents.dispatch querySelector s e).
Proof.
  intros C. destruct e as [[|link|] inside | w | y];
    cbn [NavigationEvents.dispatch].
  - apply document_click_consistent. by apply toggleMobileMenu_consistent.
  - apply document_click_consistent. by apply handleNavClick_consistent.
  - by apply document_click_consistent.
  - unfold NavigationEvents.resize_listener.
    destruct (768 <? w); [apply closeMobileMenu_consistent | exact C].
  - exact C.
Qed.

(** X1.  Whatever clicks, resizes and scrolls the page hands to the
    listeners of the navigation, from a state in which the toggle control
    and the menu agree and the body overflow is "hidden" exactly when the
    menu is open, they still agree afterwards and the page scroll is
    locked exactly while the menu is open. *)
Theorem scroll_lock_follows_menu :
  forall (querySelector : jsstring -> Navigation.query_result)
         (evs : list NavigationEvents.event) (s : Navigation.state),
    NavigationEvents.menu_consistent s ->
    NavigationEvents.menu_consistent
      (fold_left (NavigationEvents.dispatch querySelector) evs s).
Proof.
  intros querySelector evs. induction evs as [|e evs IH]; intros s C.
  - exact C.
  - simpl. apply IH. by apply dispatch_consistent.
Qed.

(** The closed page, opened by a click on the toggle control, after a
    click on a link, a click outside the bar, a narrow and a wide resize. *)
Lemma scroll_lock_follows_menu_witness :
  NavigationEvents.menu_consistent
    (fold_left (NavigationEvents.dispatch Navigation.about_document)
       [NavigationEvents.Click NavigationEvents.OnHamburger true;
        NavigationEvents.Click
          (NavigationEvents.OnLink
             {| Navigation.href := Some (str "#");
                Navigation.classList := [str "nav-link"] |}) true;
        NavigationEvents.Click NavigationEvents.Elsewhere false;
        NavigationEvents.Resized 500;
        NavigationEvents.Click NavigationEvents.OnHamburger true;
        NavigationEvents.Resized 1024;
        NavigationEvents.Scrolled 400]
       Navigation.nested_page).
Proof.
  apply (scroll_lock_follows_menu Navigation.about_document).
  split; reflexivity.
Defined.

(** X2.  When the toggle control does not lie inside the navigation bar, a
    click on it never leaves the menu open: the listener of the control
    toggles the menu, and the listener of the document, which runs next,
    closes a menu that is open after a click outside the bar. *)
Theorem hamburger_outside_navbar_never_opens :
  forall (querySelector : jsstring -> Navigation.query_result)
         (s : Navigation.state),
    NavigationEvents.menu_open
      (NavigationEvents.dispatch querySelector s
         (NavigationEvents.Click NavigationEvents.OnHamburger false)) = false.
Proof.
  intros querySelector s. cbn [NavigationEvents.dispatch].
  unfold NavigationEvents.document_click_listener. cbn [negb andb].
  destruct (DOMTokenList.contains _ _) eqn:E.
  - apply closeMobileMenu_consistent.
  - exact E.
Qed.

(** X3.  With the toggle control inside the bar, a click on it flips the
    menu between open and closed, and a second click brings back the state
    of the menu and of the scroll lock. *)
Theorem hamburger_click_toggles :
  forall (querySelector : jsstring -> Navigation.query_result)
         (s : Navigation.state),
    NavigationEvents.menu_consistent s ->
    let once := NavigationEvents.dispatch querySelector s
                  (NavigationEvents.Click NavigationEvents.OnHamburger true) in
    let twice := NavigationEvents.dispatch querySelector once
                   (NavigationEvents.Click NavigationEvents.OnHamburger true) in
    NavigationEvents.menu_open once = negb (NavigationEvents.menu_open s)
    /\ NavigationEvents.menu_open twice = NavigationEvents.menu_open s
    /\ Navigation.body_overflow twice = Navigation.body_overflow s.
Proof.
  intros querySelector s C once twice.
  assert (O : once = Navigation.toggleMobileMenu s) by reflexivity.
  assert (T : twice = Navigation.toggleMobileMenu once) by reflexivity.
  destruct (toggleMobileMenu_consistent s C) as [C1 M1].
  rewrite <- O in C1, M1.
  destruct (toggleMobileMenu_consistent once C1) as [C2 M2].
  rewrite <- T in C2, M2.
  split; [exact M1|]. rewrite M2, M1, negb_involutive. split; [reflexivity|].
  destruct C as [_ B], C2 as [_ B2]. rewrite B, B2, M2, M1, negb_involutive.
  reflexivity.
Qed.

(** ** Navigation: more on the active link *)

Lemma hamburger_click_toggles_witness :
  let once := NavigationEvents.dispatch Navigation.about_document
                Navigation.nested_page
                (NavigationEvents.Click NavigationEvents.OnHamburger true) in
  let twice := NavigationEvents.dispatch Navigation.about_document once
                 (NavigationEvents.Click NavigationEvents.OnHamburger true) in
  NavigationEvents.menu_open once
  = negb (NavigationEvents.menu_open Navigation.nested_page)
  /\ NavigationEvents.menu_open twice
     = NavigationEvents.menu_open Navigation.nested_page
  /\ Navigation.body_overflow twice
     = Navigation.body_overflow Navigation.nested_page.
Proof.
  apply (hamburger_click_toggles Navigation.about_document
           Navigation.nested_page).
  split; reflexivity.
Defined.

(** X4.  [updateActiveLink] is idempotent: run again at the same scroll
    offset it changes nothing. *)
Theorem updateActiveLink_idempotent :
  forall s : Navigation.state,
    Navigation.updateActiveLink (Navigation.updateActiveLink s)
    = Navigation.updateActiveLink s.
Proof.
  intros s. unfold Navigation.updateActiveLink.
  cbn [Navigation.sections Navigation.scrollY Navigation.navLinks
       Navigation.set_navLinks].
  rewrite !scan_sections.
  destruct (Navigation.last_in_span _ _) as [sec|]; [|reflexivity].
  unfold Navigation.set_navLinks. cbn. f_equal.
  rewrite map_map. apply map_ext. intros l. apply mark_mark.
Qed.

(** X5.  [updateActiveLink] touches the class "active" of the links and
    nothing else: every link keeps its href and every other class, in the
    same order, and the bar, the menu and the scroll request stay as they
    were. *)
Theorem updateActiveLink_touches_active_only :
  forall (s : Navigation.state) (tok : jsstring),
    tok <> str "active" ->
    map (fun l => (Navigation.href l,
                   DOMTokenList.contains tok (Navigation.classList l)))
        (Navigation.navLinks (Navigation.updateActiveLink s))
    = map (fun l => (Navigation.href l,
                     DOMTokenList.contains tok (Navigation.classList l)))
          (Navigation.navLinks s)
    /\ Navigation.navbar (Navigation.updateActiveLink s) = Navigation.navbar s
    /\ Navigation.navMenu (Navigation.updateActiveLink s) = Navigation.navMenu s
    /\ Navigation.scrolled_to (Navigation.updateActiveLink s)
       = Navigation.scrolled_to s.
Proof.
  intros s tok N. split; [|done].
  unfold Navigation.updateActiveLink.
  cbn [Navigation.navLinks Navigation.set_navLinks]. rewrite scan_sections.
  destruct (Navigation.last_in_span _ _) as [sec|]; [|reflexivity].
  rewrite map_map. apply map_ext. intros l.
  unfold Navigation.mark. cbn [Navigation.href Navigation.classList]. f_equal.
  case_bool_decide.
  - rewrite contains_add_ne, contains_remove_ne by done. reflexivity.
  - by rewrite contains_remove_ne.
Qed.

Lemma updateActiveLink_touches_active_only_witness :
  map (fun l => (Navigation.href l,
                 DOMTokenList.contains (str "nav-link") (Navigation.classList l)))
      (Navigation.navLinks (Navigation.updateActiveLink Navigation.nested_page))
  = map (fun l => (Navigation.href l,
                   DOMTokenList.contains (str "nav-link")
                     (Navigation.classList l)))
        (Navigation.navLinks Navigation.nested_page)
  /\ Navigation.navbar (Navigation.updateActiveLink Navigation.nested_page)
     = Navigation.navbar Navigation.nested_page
  /\ Navigation.navMenu (Navigation.updateActiveLink Navigation.nested_page)
     = Navigation.navMenu Navigation.nested_page
  /\ Navigation.scrolled_to (Navigation.updateActiveLink Navigation.nested_page)
     = Navigation.scrolled_to Navigation.nested_page.
Proof.
  apply (updateActiveLink_touches_active_only Navigation.nested_page
           (str "nav-link")).
  vm_compute. discriminate.
Defined.

Lemma targets_at_most_once sec links :
  NoDup (map Navigation.href links) ->
  (length (List.filter (Navigation.targets sec) links) <= 1)%nat.
Proof.
  induction links as [|l links IH]; [simpl; lia|].
  cbn [map]. intros D. apply NoDup_cons in D as [Nin D].
  cbn [List.filter]. destruct (Navigation.targets sec l) eqn:T; [|by apply IH].
  assert (E : List.filter (Navigation.targets sec) links = []).
  { destruct (List.filter (Navigation.targets sec) links) as [|x r] eqn:F;
      [reflexivity|].
    exfalso. assert (I : In x (x :: r)) by (left; reflexivity).
    rewrite <- F in I. apply filter_In in I as [I Tx].
    unfold Navigation.targets in T, Tx.
    apply bool_decide_eq_true in T, Tx.
    apply Nin. rewrite T, <- Tx. apply list_elem_of_In. by apply in_map. }
  rewrite E. simpl. lia.
Qed.

(** X6.  When the links have pairwise different hrefs and one of them
    targets the last section whose span holds scrollY+100, that link is the
    one and only active link after [updateActiveLink]. *)
Theorem exactly_one_active_link :
  forall (s : Navigation.state) (sec : Navigation.section)
         (link : Navigation.navlink),
    NoDup (map Navigation.href (Navigation.navLinks s)) ->
    Navigation.last_in_span (Navigation.scrollY s + 100) (Navigation.sections s)
    = Some sec ->
    In link (Navigation.navLinks s) ->
    Navigation.targets sec link = true ->
    List.filter Navigation.is_active
      (Navigation.navLinks (Navigation.updateActiveLink s))
    = [Navigation.mark (Navigation.sec_id sec) link].
Proof.
  intros s sec link D L I T.
  unfold Navigation.updateActiveLink.
  cbn [Navigation.navLinks Navigation.set_navLinks].
  rewrite scan_sections, L.
  pose proof (targets_at_most_once sec _ D) as Le.
  induction (Navigation.navLinks s) as [|l links IH]; [destruct I|].
  cbn [map List.filter] in *. rewrite is_active_mark.
  apply NoDup_cons in D as [Nin D].
  destruct (Navigation.targets sec l) eqn:Tl.
  - assert (E : List.filter (Navigation.targets sec) links = []).
    { destruct (List.filter _ links); [reflexivity | simpl in Le; lia]. }
    assert (E' : List.filter Navigation.is_active
                   (map (Navigation.mark (Navigation.sec_id sec)) links) = []).
    { clear -E. induction links as [|x r IH]; [reflexivity|].
      cbn [map List.filter] in *. rewrite is_active_mark.
      destruct (Navigation.targets sec x); [discriminate|]. by apply IH. }
    rewrite E'. destruct I as [->|I]; [reflexivity|].
    exfalso. assert (In link (List.filter (Navigation.targets sec) links))
      by (apply filter_In; done).
    rewrite E in H. destruct H.
  - destruct I as [->|I]; [congruence|]. by apply IH.
Qed.

Lemma exactly_one_active_link_witness :
  List.filter Navigation.is_active
    (Navigation.navLinks (Navigation.updateActiveLink Navigation.nested_page))
  = [Navigation.mark (str "skills")
       {| Navigation.href := Some (str "#skills");
          Navigation.classList := [str "nav-link"] |}].
Proof.
  apply (exactly_one_active_link Navigation.nested_page
           {| Navigation.sec_id := str "skills"; Navigation.offsetTop := 50;
              Navigation.offsetHeight := 400 |}).
  - apply (bool_decide_unpack _). vm_compute. exact I.
  - reflexivity.
  - right. left. reflexivity.
  - reflexivity.
Defined.

(** ** Navigation: the throttled scroll listener *)

Lemma scroll_in_window limit due evs :
  forall now ws s now' p',
    Throttle.inThrottle ws = true ->
    Throttle.pending ws = [due] ->
    Forall (fun e => NavigationEvents.scroll_time e < due) evs ->
    NavigationEvents.scroll_run limit now (ws, s) evs = Some (now', p') ->
    p' = (ws, Navigation.set_scrollY
                (NavigationEvents.last_offset (Navigation.scrollY s) evs) s).
Proof.
  induction evs as [|e evs IH]; intros now ws s now' p' T P W R.
  - injection R as _ <-. by destruct s.
  - apply Forall_cons in W as [We W].
    cbn [NavigationEvents.scroll_run] in R.
    destruct e as [t y | t i];
      cbn [NavigationEvents.scroll_step NavigationEvents.scroll_time fst snd]
        in R, We.
    + destruct (now <=? t); [|discriminate].
      unfold NavigationEvents.throttled_scroll, Throttle.wrapper in R.
      cbn [fst snd] in R. rewrite T in R. cbn [negb] in R.
      apply (IH _ _ _ _ _ T P W) in R. rewrite R. by destruct s.
    + rewrite P in R. destruct i as [|i]; [|discriminate].
      cbn in R. replace (due <=? t) with false in R
        by (symmetry; apply Z.leb_gt; lia).
      rewrite andb_false_r in R. discriminate.
Qed.

(** X7.  Scroll events that all fall into one throttle window are handled
    once, for the first of them: the page ends at the offset of the last
    event, while the class "scrolled" of the bar and the active link are
    those of the first offset.  No call is made for the last offset once
    the window is over. *)
Theorem throttled_scroll_keeps_first_offset :
  forall (limit now : Z) (ws : Throttle.state Z) (s : Navigation.state)
         (t1 y1 : Z) (evs : list NavigationEvents.scroll_event)
         (now' : Z) (p' : Throttle.state Z * Navigation.state),
    Throttle.idle ws ->
    Forall (fun e => NavigationEvents.scroll_time e < t1 + limit) evs ->
    NavigationEvents.scroll_run limit now (ws, s)
      (NavigationEvents.ScrollAt t1 y1 :: evs) = Some (now', p') ->
    Navigation.scrollY p'.2 = NavigationEvents.last_offset y1 evs
    /\ (DOMTokenList.contains (str "scrolled") (Navigation.navbar p'.2) = true
        <-> 50 < y1)
    /\ Navigation.navLinks p'.2
       = Navigation.navLinks
           (Navigation.updateActiveLink (Navigation.set_scrollY y1 s)).
Proof.
  intros limit now ws s t1 y1 evs now' p' [I P] W R.
  cbn [NavigationEvents.scroll_run NavigationEvents.scroll_step] in R.
  destruct (now <=? t1); [|discriminate].
  unfold NavigationEvents.throttled_scroll, Throttle.wrapper in R.
  cbn [fst snd] in R. rewrite I, P in R. cbn [negb app] in R.
  apply scroll_in_window with (due := t1 + Z.max 0 limit) in R;
    [|reflexivity|reflexivity|].
  - rewrite R. cbn [snd]. split; [reflexivity|].
    split; [|reflexivity].
    change (DOMTokenList.contains (str "scrolled")
              (Navigation.navbar
                 (Navigation.scroll_listener (Navigation.set_scrollY y1 s)))
            = true <-> 50 < y1).
    rewrite scrolled_class. apply Z.ltb_lt.
  - eapply Forall_impl; [exact W|]. intros e E. simpl in E. lia.
Qed.

(** A scroll at offset 0 and, 5 units of time later, one to offset 400:
    the page stands at 400 and the bar does not carry "scrolled". *)
Lemma throttled_scroll_keeps_first_offset_witness :
  forallb (fun p : Throttle.state Z * Navigation.state =>
             (Navigation.scrollY p.2 =? 400)
             && negb (DOMTokenList.contains (str "scrolled")
                        (Navigation.navbar p.2)))
          [NavigationEvents.throttled_scroll 16 5 400
             (NavigationEvents.throttled_scroll 16 0 0
                (Throttle.initial, Navigation.nested_page))] = true.
Proof.
  destruct (throttled_scroll_keeps_first_offset 16 0 Throttle.initial
              Navigation.nested_page 0 0 [NavigationEvents.ScrollAt 5 400] 5
              (NavigationEvents.throttled_scroll 16 5 400
                 (NavigationEvents.throttled_scroll 16 0 0
                    (Throttle.initial, Navigation.nested_page)))
              (conj eq_refl eq_refl)
              ltac:(repeat constructor) eq_refl) as (Y & B & _).
  cbn [forallb]. rewrite Y.
  destruct (DOMTokenList.contains _ _); [|reflexivity].
  destruct B as [B _]. specialize (B eq_refl). lia.
Defined.

(** ** Counter animation: the running display *)

(** Every target from 1 to 1000, run in double precision. *)
Lemma counts_up_checked :
  forallb AnimationManager.counts_up
          (AnimationManager.upto (Z.to_nat 1000) 1) = true.
Proof. vm_compute. reflexivity. Qed.

(** X8.  In the double-precision arithmetic of the script and for a target
    t from 1 to 1000, the counter is running on each of its first 59 ticks:
    after k of them the interval is set and the element shows an integer,
    followed by "+" when t exceeds 10.  The integer is the integer part of
    k*t/60, except that where k*t/60 is itself an integer the rounded sum
    may stay below it, and the element then shows one less. *)
Theorem counter_running_display :
  forall (target : Z) (text : jsstring) (k : nat),
    1 <= target <= 1000 -> (1 <= k <= 59)%nat ->
    let c := AnimationManager.run k target
               (AnimationManager.animateCounter (num:=PrimFloat.float) text) in
    AnimationManager.timer c = true
    /\ exists shown : Z,
         AnimationManager.textContent c
         = decimal shown ++ (if 10 <? target then str "+" else str "")
         /\ (shown = Z.of_nat k * target / 60
             \/ (shown = Z.of_nat k * target / 60 - 1
                 /\ (Z.of_nat k * target) mod 60 = 0)).
Proof.
  intros target text k R K c.
  assert (U : AnimationManager.counts_up target = true).
  { apply (proj1 (forallb_forall _ _) counts_up_checked).
    apply In_upto. rewrite Z2Nat.id by lia. lia. }
  unfold AnimationManager.counts_up in U. cbv zeta in U.
  assert (I : In k (seq 1 59)) by (apply in_seq; lia).
  apply (proj1 (forallb_forall _ _) U) in I.
  apply andb_true_iff in I as [T F].
  pose proof (count_run k target
                (AnimationManager.animateCounter (num:=PrimFloat.float) text)
                eq_refl) as E.
  fold c in E.
  change (AnimationManager.count k _ _ _)
    with (AnimationManager.count k (AnimationManager.Number target)
            (PrimFloat.div (AnimationManager.Number target)
               (AnimationManager.Number 60))
            (AnimationManager.Number 0)) in E.
  rewrite <- E in T, F. cbn [fst snd] in T, F.
  split; [exact T|].
  exists (AnimationManager.Math_floor (AnimationManager.current c)).
  split.
  - destruct k as [|k]; [lia|].
    pose proof (run_shows k target
                  (AnimationManager.animateCounter (num:=PrimFloat.float) text)
                  eq_refl) as W.
    cbv zeta in W. fold c in W. rewrite W, T. reflexivity.
  - unfold AnimationManager.near_floor in F.
    apply orb_true_iff in F as [F|F].
    + left. by apply Z.eqb_eq.
    + right. apply andb_true_iff in F as [F1 F2].
      split; by apply Z.eqb_eq.
Qed.

(** The target 25 after 36 ticks: 36*25/60 is 15, and the element shows
    "14+". *)
Lemma counter_running_display_witness :
  let c := AnimationManager.run 36 25
             (AnimationManager.animateCounter (num:=PrimFloat.float)
                (str "25+")) in
  AnimationManager.timer c = true
  /\ exists shown : Z,
       AnimationManager.textContent c
       = decimal shown ++ (if 10 <? 25 then str "+" else str "")
       /\ (shown = Z.of_nat 36 * 25 / 60
           \/ (shown = Z.of_nat 36 * 25 / 60 - 1
               /\ (Z.of_nat 36 * 25) mod 60 = 0)).
Proof.
  apply (counter_running_display 25 (str "25+") 36); lia.
Defined.



(** ** Contact form: white space around a value *)

Lemma trimStart_app s t :
  trimStart (s ++ t)
  = if forallb is_space s then trimStart t else trimStart s ++ t.
Proof.
  induction s as [|c s IH]; [reflexivity|].
  cbn [app trimStart forallb]. destruct (is_space c); [exact IH | reflexivity].
Qed.

Lemma trimStart_spaces s : forallb is_space s = true -> trimStart s = [].
Proof.
  induction s as [|c s IH]; [reflexivity|].
  cbn [forallb trimStart]. intros H. apply andb_true_iff in H as [C S].
  rewrite C. by apply IH.
Qed.

Lemma trimStart_spaces_iff s : trimStart s = [] <-> forallb is_space s = true.
Proof.
  split; [|apply trimStart_spaces].
  induction s as [|c s IH]; [reflexivity|].
  cbn [forallb trimStart]. destruct (is_space c); [exact IH | discriminate].
Qed.

Lemma forallb_rev {B : Type} (p : B -> bool) (l : list B) :
  forallb p (rev l) = forallb p l.
Proof.
  induction l as [|x l IH]; [reflexivity|].
  cbn [rev forallb]. rewrite forallb_app, IH. cbn [forallb].
  rewrite andb_true_r. apply andb_comm.
Qed.

Lemma trimEnd_app s t :
  trimEnd (s ++ t)
  = if forallb is_space t then trimEnd s else s ++ trimEnd t.
Proof.
  unfold trimEnd. rewrite rev_app_distr, trimStart_app, forallb_rev.
  destruct (forallb is_space t); [reflexivity|].
  by rewrite rev_app_distr, rev_involutive.
Qed.

(** White space around a value does not reach the tests. *)
Lemma trim_padded pad1 v pad2 :
  forallb is_space pad1 = true -> forallb is_space pad2 = true ->
  trim (pad1 ++ v ++ pad2) = trim v.
Proof.
  intros P1 P2. unfold trim. rewrite trimStart_app, P1, trimStart_app.
  destruct (forallb is_space v) eqn:V.
  - rewrite (trimStart_spaces _ P2), (trimStart_spaces _ V). reflexivity.
  - by rewrite trimEnd_app, P2.
Qed.

Lemma check_verdict f :
  (ContactForm.validateField f).1 = (ContactForm.check f).1.
Proof.
  unfold ContactForm.validateField.
  destruct (ContactForm.check f) as [ok msg]. by destruct ok.
Qed.

(** X10.  White space before and after a value never changes the verdict
    of [validateField]: a value and the same value padded with white space
    are both valid or both invalid, whatever the type of the field. *)
Theorem validation_ignores_outer_space :
  forall (f : ContactForm.field) (pad1 v pad2 : jsstring),
    forallb is_space pad1 = true ->
    forallb is_space pad2 = true ->
    (ContactForm.validateField
       (ContactForm.set_value (pad1 ++ v ++ pad2) f)).1
    = (ContactForm.validateField (ContactForm.set_value v f)).1.
Proof.
  intros f pad1 v pad2 P1 P2. rewrite !check_verdict.
  unfold ContactForm.check, ContactForm.set_value.
  cbn [ContactForm.value ContactForm.type].
  by rewrite trim_padded.
Qed.

Lemma validation_ignores_outer_space_witness :
  (ContactForm.validateField
     (ContactForm.set_value (str "  " ++ str "a@b.c" ++ [9; 10])
        (ContactForm.control "email" ""))).1
  = (ContactForm.validateField
       (ContactForm.set_value (str "a@b.c") (ContactForm.control "email" ""))).1.
Proof.
  apply (validation_ignores_outer_space (ContactForm.control "email" "")
           (str "  ") (str "a@b.c") [9; 10]); reflexivity.
Defined.

(** ** Contact form: what a valid email value looks like *)

Lemma not_space_at_facts l :
  forallb ContactForm.not_space_at l = true ->
  forallb (fun c => negb (is_space c)) l = true
  /\ List.filter (Z.eqb 64) l = [].
Proof.
  induction l as [|c l IH]; [done|].
  cbn [forallb List.filter]. intros H. apply andb_true_iff in H as [Hc Hl].
  destruct (IH Hl) as [A B]. unfold ContactForm.not_space_at in Hc.
  apply negb_true_iff, orb_false_iff in Hc as [S At].
  rewrite S, A. rewrite Z.eqb_sym, At. done.
Qed.

(** X11.  A value that an email field accepts holds, once trimmed, exactly
    one "@" and no white space, and is at least five characters long. *)
Theorem valid_email_facts :
  forall f : ContactForm.field,
    ContactForm.type f = str "email" ->
    (ContactForm.validateField f).1 = true ->
    let v := trim (ContactForm.value f) in
    length (List.filter (Z.eqb 64) v) = 1%nat
    /\ forallb (fun c => negb (is_space c)) v = true
    /\ (5 <= length v)%nat.
Proof.
  intros f Ty V v. rewrite validateField_cases in V. fold v in V.
  destruct v as [|c0 v0] eqn:Ev; [discriminate|]. rewrite <- Ev in *.
  rewrite Ty in V. unfold jsstring_eqb in V.
  rewrite bool_decide_eq_true_2 in V by reflexivity.
  destruct (Regex.test ContactForm.emailRegex v) eqn:T; [|discriminate].
  apply email_regex_shape in T as (l & d & t & E & Nl & Nd & Nt & F).
  rewrite !forallb_app, !andb_true_iff in F. destruct F as (Fl & Fd & Ft).
  apply not_space_at_facts in Fl as [Sl Al], Fd as [Sd Ad], Ft as [St At'].
  rewrite E. repeat split.
  - rewrite List.filter_app. cbn [List.filter]. rewrite Z.eqb_refl.
    rewrite List.filter_app. cbn [List.filter].
    replace (64 =? 46) with false by reflexivity.
    rewrite Al, Ad, At'. reflexivity.
  - rewrite forallb_app. cbn [forallb]. rewrite forallb_app. cbn [forallb].
    rewrite Sl, Sd, St. reflexivity.
  - rewrite length_app. cbn [length]. rewrite length_app. cbn [length].
    destruct l; [done|]. destruct d; [done|]. destruct t; [done|].
    cbn [length]. lia.
Qed.

Lemma valid_email_facts_witness :
  let v := trim (ContactForm.value (ContactForm.control "email" " a@b.c ")) in
  length (List.filter (Z.eqb 64) v) = 1%nat
  /\ forallb (fun c => negb (is_space c)) v = true
  /\ (5 <= length v)%nat.
Proof.
  apply (valid_email_facts (ContactForm.control "email" " a@b.c ")); reflexivity.
Defined.

(** ** Contact form: what a field shows *)

Lemma remove_first_clean l :
  List.filter ContactForm.is_field_error l = [] ->
  ContactForm.remove_first l = l.
Proof.
  induction l as [|n l IH]; [reflexivity|].
  cbn [List.filter ContactForm.remove_first].
  destruct (ContactForm.is_field_error n); [discriminate|].
  intros E. by rewrite IH.
Qed.

Lemma remove_first_errors l :
  List.filter ContactForm.is_field_error (ContactForm.remove_first l)
  = tail (List.filter ContactForm.is_field_error l).
Proof.
  induction l as [|n l IH]; [reflexivity|].
  cbn [List.filter ContactForm.remove_first].
  destruct (ContactForm.is_field_error n) eqn:E; [reflexivity|].
  cbn [List.filter]. by rewrite E.
Qed.

Lemma remove_first_others l :
  List.filter (fun n => negb (ContactForm.is_field_error n))
    (ContactForm.remove_first l)
  = List.filter (fun n => negb (ContactForm.is_field_error n)) l.
Proof.
  induction l as [|n l IH]; [reflexivity|].
  cbn [List.filter ContactForm.remove_first].
  destruct (ContactForm.is_field_error n) eqn:E; cbn [negb]; [reflexivity|].
  cbn [List.filter]. rewrite E. cbn [negb]. by rewrite IH.
Qed.

Lemma short_tail {B : Type} (l : list B) : (length l <= 1)%nat -> tail l = [].
Proof. destruct l as [|x [|y l]]; simpl; [done | done | lia]. Qed.

(** The error elements below the parent after an operation, for a field
    with at most one before it. *)
Lemma errors_after_clear f :
  (ContactForm.count_errors f <= 1)%nat ->
  List.filter ContactForm.is_field_error
    (ContactForm.parent (ContactForm.clearFieldError f)) = [].
Proof.
  intros L. unfold ContactForm.clearFieldError. cbn [ContactForm.parent].
  rewrite remove_first_errors. by apply short_tail.
Qed.

Lemma errors_after_show f message :
  (ContactForm.count_errors f <= 1)%nat ->
  List.filter ContactForm.is_field_error
    (ContactForm.parent (ContactForm.showFieldError f message))
  = [ContactForm.errorElement message].
Proof.
  intros L. unfold ContactForm.showFieldError. cbn [ContactForm.parent].
  rewrite List.filter_app, (errors_after_clear f L). reflexivity.
Qed.

Lemma single_error_fold ops :
  forall f, ContactForm.single_error f ->
            ContactForm.single_error
              (fold_left ContactForm.apply_operation ops f).
Proof.
  induction ops as [|op ops IH]; intros f I; [exact I|].
  simpl. apply IH. by apply single_error_step.
Qed.

(** X12.  The message on display is the one of the last operation: from a
    field that shows no error, after any operations and one more, the error
    elements below the parent are none after a clearing or a successful
    validation, and exactly one, with the message of that operation, after
    [showFieldError] or a failed validation. *)
Theorem last_operation_decides_message :
  forall (f : ContactForm.field) (ops : list ContactForm.operation)
         (op : ContactForm.operation),
    ContactForm.count_errors f = 0%nat ->
    ContactForm.has_error_class f = false ->
    let before := fold_left ContactForm.apply_operation ops f in
    ErrorDisplay.shown (ContactForm.apply_operation before op)
    = ErrorDisplay.displayed before op.
Proof.
  intros f ops op C E before.
  assert (I : ContactForm.single_error before).
  { apply single_error_fold. unfold ContactForm.single_error.
    rewrite C, E. split; [lia|]. split; discriminate. }
  destruct I as [L _].
  destruct op as [typed|message|]; unfold ErrorDisplay.shown;
    cbn [ContactForm.apply_operation ErrorDisplay.displayed].
  - unfold ContactForm.validateField.
    assert (L' : (ContactForm.count_errors
                    (ContactForm.set_value typed before) <= 1)%nat) by exact L.
    destruct (ContactForm.check _) as [ok message]. destruct ok; cbn [negb snd].
    + by rewrite errors_after_clear.
    + by rewrite errors_after_show.
  - by rewrite errors_after_show.
  - by rewrite errors_after_clear.
Qed.

Lemma last_operation_decides_message_witness :
  let before :=
    fold_left ContactForm.apply_operation
      [ContactForm.ShowError (str "first"); ContactForm.Validate (str "")]
      (ContactForm.control "email" "") in
  ErrorDisplay.shown
    (ContactForm.apply_operation before (ContactForm.Validate (str "a@b")))
  = ErrorDisplay.displayed before (ContactForm.Validate (str "a@b")).
Proof.
  apply (last_operation_decides_message (ContactForm.control "email" ""));
    reflexivity.
Defined.

Lemma apply_operation_keeps_others f op :
  List.filter (fun n => negb (ContactForm.is_field_error n))
    (ContactForm.parent (ContactForm.apply_operation f op))
  = List.filter (fun n => negb (ContactForm.is_field_error n))
      (ContactForm.parent f)
  /\ ContactForm.name (ContactForm.apply_operation f op) = ContactForm.name f
  /\ ContactForm.type (ContactForm.apply_operation f op) = ContactForm.type f
  /\ forall tok, tok <> str "error" ->
       DOMTokenList.contains tok
         (ContactForm.classList (ContactForm.apply_operation f op))
       = DOMTokenList.contains tok (ContactForm.classList f).
Proof.
  assert (K : forall g,
    List.filter (fun n => negb (ContactForm.is_field_error n))
      (ContactForm.parent (ContactForm.clearFieldError g))
    = List.filter (fun n => negb (ContactForm.is_field_error n))
        (ContactForm.parent g)
    /\ ContactForm.name (ContactForm.clearFieldError g) = ContactForm.name g
    /\ ContactForm.type (ContactForm.clearFieldError g) = ContactForm.type g
    /\ forall tok, tok <> str "error" ->
         DOMTokenList.contains tok
           (ContactForm.classList (ContactForm.clearFieldError g))
         = DOMTokenList.contains tok (ContactForm.classList g)).
  { intros g. unfold ContactForm.clearFieldError.
    cbn [ContactForm.parent ContactForm.name ContactForm.type
         ContactForm.classList].
    rewrite remove_first_others. repeat split; try reflexivity.
    intros tok N. by apply contains_remove_ne. }
  assert (S : forall g m,
    List.filter (fun n => negb (ContactForm.is_field_error n))
      (ContactForm.parent (ContactForm.showFieldError g m))
    = List.filter (fun n => negb (ContactForm.is_field_error n))
        (ContactForm.parent g)
    /\ ContactForm.name (ContactForm.showFieldError g m) = ContactForm.name g
    /\ ContactForm.type (ContactForm.showFieldError g m) = ContactForm.type g
    /\ forall tok, tok <> str "error" ->
         DOMTokenList.contains tok
           (ContactForm.classList (ContactForm.showFieldError g m))
         = DOMTokenList.contains tok (ContactForm.classList g)).
  { intros g m. destruct (K g) as (K1 & K2 & K3 & K4).
    unfold ContactForm.showFieldError.
    cbn [ContactForm.parent ContactForm.name ContactForm.type
         ContactForm.classList].
    rewrite List.filter_app, K1. cbn [List.filter].
    replace (negb (ContactForm.is_field_error (ContactForm.errorElement m)))
      with false by reflexivity.
    rewrite app_nil_r. repeat split; try assumption.
    intros tok N. rewrite contains_add_ne by exact N. by apply K4. }
  destruct op as [typed|message|]; cbn [ContactForm.apply_operation].
  - unfold ContactForm.validateField.
    destruct (ContactForm.check _) as [ok message].
    destruct ok; cbn [negb snd];
      [apply (K (ContactForm.set_value typed f))
      | apply (S (ContactForm.set_value typed f))].
  - apply S.
  - apply K.
Qed.

(** X13.  Validation and the two error operations touch the error state of
    a field and nothing else: the other elements below the parent stay, in
    their order, and the field keeps its name, its type and every class
    other than "error". *)
Theorem operations_touch_error_state_only :
  forall (ops : list ContactForm.operation) (f : ContactForm.field)
         (tok : jsstring),
    tok <> str "error" ->
    let f' := fold_left ContactForm.apply_operation ops f in
    ErrorDisplay.others f' = ErrorDisplay.others f
    /\ ContactForm.name f' = ContactForm.name f
    /\ ContactForm.type f' = ContactForm.type f
    /\ DOMTokenList.contains tok (ContactForm.classList f')
       = DOMTokenList.contains tok (ContactForm.classList f).
Proof.
  unfold ErrorDisplay.others.
  intros ops. induction ops as [|op ops IH]; intros f tok N; [done|].
  cbn [fold_left]. cbv zeta.
  destruct (IH (ContactForm.apply_operation f op) tok N) as (A & B & C & D).
  destruct (apply_operation_keeps_others f op) as (A' & B' & C' & D').
  rewrite A, B, C, D, A', B', C', (D' tok N). done.
Qed.

Lemma operations_touch_error_state_only_witness :
  let f' :=
    fold_left ContactForm.apply_operation
      [ContactForm.Validate (str "x"); ContactForm.ClearError;
       ContactForm.ShowError (str "m")]
      (ContactForm.control "email" "") in
  ErrorDisplay.others f' = ErrorDisplay.others (ContactForm.control "email" "")
  /\ ContactForm.name f' = ContactForm.name (ContactForm.control "email" "")
  /\ ContactForm.type f' = ContactForm.type (ContactForm.control "email" "")
  /\ DOMTokenList.contains (str "form-input") (ContactForm.classList f')
     = DOMTokenList.contains (str "form-input")
         (ContactForm.classList (ContactForm.control "email" "")).
Proof.
  apply (operations_touch_error_state_only
           [ContactForm.Validate (str "x"); ContactForm.ClearError;
            ContactForm.ShowError (str "m")]
           (ContactForm.control "email" "") (str "form-input")).
  vm_compute. discriminate.
Defined.

Lemma dom_add_clean tok l :
  DOMTokenList.contains tok l = false -> DOMTokenList.add tok l = l ++ [tok].
Proof. intros E. unfold DOMTokenList.add. by rewrite E. Qed.

(** X14.  Validating a field twice in a row is the same as validating it
    once, for a field with at most one error element below its parent: the
    second validation returns the same verdict and leaves the field and
    its parent exactly as the first one left them. *)
Theorem validateField_idempotent :
  forall f : ContactForm.field,
    (ContactForm.count_errors f <= 1)%nat ->
    ContactForm.validateField (ContactForm.validateField f).2
    = ContactForm.validateField f.
Proof.
  intros f L.
  assert (C : List.filter ContactForm.is_field_error
                (ContactForm.remove_first (ContactForm.parent f)) = []).
  { rewrite remove_first_errors. by apply short_tail. }
  assert (K : ContactForm.clearFieldError (ContactForm.clearFieldError f)
              = ContactForm.clearFieldError f).
  { unfold ContactForm.clearFieldError.
    cbn [ContactForm.parent ContactForm.name ContactForm.type
         ContactForm.classList ContactForm.value].
    by rewrite remove_idem, (remove_first_clean _ C). }
  assert (S : forall m,
             ContactForm.showFieldError (ContactForm.showFieldError f m) m
             = ContactForm.showFieldError f m).
  { intros m. unfold ContactForm.showFieldError at 1 3.
    f_equal.
    - unfold ContactForm.showFieldError, ContactForm.clearFieldError.
      cbn [ContactForm.classList]. by rewrite remove_add_eq, remove_idem.
    - unfold ContactForm.showFieldError, ContactForm.clearFieldError.
      cbn [ContactForm.parent].
      assert (R : ContactForm.remove_first
                    (ContactForm.remove_first (ContactForm.parent f)
                     ++ [ContactForm.errorElement m])
                  = ContactForm.remove_first (ContactForm.parent f)).
      { generalize dependent (ContactForm.remove_first (ContactForm.parent f)).
        intros l Cl. induction l as [|n l IH]; [reflexivity|].
        cbn [List.filter app ContactForm.remove_first] in *.
        destruct (ContactForm.is_field_error n); [discriminate|].
        by rewrite IH. }
      by rewrite R. }
  rewrite (validateField_cases f).
  destruct (trim (ContactForm.value f)) as [|c v] eqn:T.
  - cbn [snd]. rewrite validateField_cases.
    change (ContactForm.value (ContactForm.showFieldError f _))
      with (ContactForm.value f).
    rewrite T. by rewrite S.
  - destruct (jsstring_eqb (ContactForm.type f) (str "email")) eqn:Ty.
    + destruct (Regex.test _ _) eqn:R; cbn [snd]; rewrite validateField_cases.
      * change (ContactForm.value (ContactForm.clearFieldError f))
          with (ContactForm.value f).
        change (ContactForm.type (ContactForm.clearFieldError f))
          with (ContactForm.type f).
        rewrite T, Ty, R. by rewrite K.
      * change (ContactForm.value (ContactForm.showFieldError f _))
          with (ContactForm.value f).
        change (ContactForm.type (ContactForm.showFieldError f _))
          with (ContactForm.type f).
        rewrite T, Ty, R. by rewrite S.
    + cbn [snd]. rewrite validateField_cases.
      change (ContactForm.value (ContactForm.clearFieldError f))
        with (ContactForm.value f).
      change (ContactForm.type (ContactForm.clearFieldError f))
        with (ContactForm.type f).
      rewrite T, Ty. by rewrite K.
Qed.

Lemma validateField_idempotent_witness :
  ContactForm.validateField
    (ContactForm.validateField (ContactForm.control "email" "a@b")).2
  = ContactForm.validateField (ContactForm.control "email" "a@b").
Proof.
  apply (validateField_idempotent (ContactForm.control "email" "a@b")).
  vm_compute. lia.
Defined.

(** ** Contact form: two controls below one parent *)

(** X15.  When two controls have the same parent node, the first of them
    invalid and the second valid, the loop of [handleFormSubmit] blocks the
    submission and leaves the first control with the class "error" but
    without its message: the validation of the second control removes the
    error element that the first one had put below the parent. *)
Theorem shared_parent_loses_message :
  forall (f1 f2 : ContactForm.field) (p : list ContactForm.node),
    List.filter ContactForm.is_field_error p = [] ->
    (ContactForm.validateField f1).1 = false ->
    (ContactForm.validateField f2).1 = true ->
    exists f1' f2' p',
      SharedParent.validate_inputs [f1; f2] p true = (false, [f1'; f2'], p')
      /\ ContactForm.has_error_class f1' = true
      /\ ContactForm.has_error_class f2' = false
      /\ List.filter ContactForm.is_field_error p' = [].
Proof.
  intros f1 f2 p C V1 V2.
  assert (W : forall q f, (ContactForm.validateField (SharedParent.with_parent q f)).1
                          = (ContactForm.validateField f).1).
  { intros q f. rewrite !validateField_cases. reflexivity || (
      cbn [ContactForm.value ContactForm.type SharedParent.with_parent];
      destruct (trim (ContactForm.value f)); [reflexivity|];
      destruct (jsstring_eqb _ _); [|reflexivity];
      destruct (Regex.test _ _); reflexivity). }
  cbn [SharedParent.validate_inputs].
  destruct (ContactForm.validateField (SharedParent.with_parent p f1))
    as [ok1 f1'] eqn:E1.
  assert (O1 : ok1 = false).
  { rewrite <- V1, <- (W p f1), E1. reflexivity. }
  subst ok1. cbn [negb].
  destruct (ContactForm.validateField
              (SharedParent.with_parent (ContactForm.parent f1') f2))
    as [ok2 f2'] eqn:E2.
  assert (O2 : ok2 = true).
  { rewrite <- V2, <- (W (ContactForm.parent f1') f2), E2. reflexivity. }
  subst ok2. cbn [negb].
  exists f1', f2', (ContactForm.parent f2'). split; [reflexivity|].
  unfold ContactForm.validateField in E1, E2.
  destruct (ContactForm.check (SharedParent.with_parent p f1)) as [a m1].
  destruct a; cbn [negb] in E1; [discriminate|]. injection E1 as <-.
  destruct (ContactForm.check (SharedParent.with_parent _ f2)) as [b m2].
  destruct b; cbn [negb] in E2; [|discriminate]. injection E2 as <-.
  assert (L1 : (ContactForm.count_errors (SharedParent.with_parent p f1) <= 1)%nat).
  { unfold ContactForm.count_errors. cbn. rewrite C. simpl. lia. }
  destruct (showFieldError_single _ m1 L1) as [Cn Hc].
  split; [exact Hc|]. split.
  - unfold ContactForm.has_error_class, ContactForm.clearFieldError.
    cbn [ContactForm.classList]. apply contains_remove_eq.
  - apply errors_after_clear.
    change (ContactForm.count_errors
              (ContactForm.showFieldError (SharedParent.with_parent p f1) m1)
            <= 1)%nat.
    lia.
Qed.

Lemma shared_parent_loses_message_witness :
  exists f1' f2' p',
    SharedParent.validate_inputs
      [ContactForm.control "email" "not-an-email";
       ContactForm.control "text" "hello"] [] true
    = (false, [f1'; f2'], p')
    /\ ContactForm.has_error_class f1' = true
    /\ ContactForm.has_error_class f2' = false
    /\ List.filter ContactForm.is_field_error p' = [].
Proof.
  apply (shared_parent_loses_message
           (ContactForm.control "email" "not-an-email")
           (ContactForm.control "text" "hello") []); reflexivity.
Defined.

(** ** Contact form: the data of a submission *)

Lemma fold_insert_app (es1 es2 : list (jsstring * jsstring))
      (m : gmap jsstring jsstring) :
  fold_left (fun m e => <[e.1 := e.2]> m) (es1 ++ es2) m
  = fold_left (fun m e => <[e.1 := e.2]> m) es2
      (fold_left (fun m e => <[e.1 := e.2]> m) es1 m).
Proof. apply fold_left_app. Qed.

Lemma fold_insert_other (es : list (jsstring * jsstring)) (k : jsstring) :
  forall m : gmap jsstring jsstring,
    Forall (fun e => e.1 <> k) es ->
    fold_left (fun m e => <[e.1 := e.2]> m) es m !! k = m !! k.
Proof.
  induction es as [|e es IH]; intros m F; [reflexivity|].
  apply Forall_cons in F as [N F]. cbn [fold_left].
  rewrite IH by exact F. by apply lookup_insert_ne.
Qed.



Lemma encode_scalar s :
  forall e, URI.encodeURIComponent s = Some e -> forallb URI.scalar s = true.
Proof.
  induction s as [|c s IH]; intros e E; [reflexivity|].
  cbn [URI.encodeURIComponent forallb] in *.
  destruct (URI.unreserved c) eqn:U.
  - destruct (URI.encodeURIComponent s) as [e'|]; [|discriminate].
    rewrite (IH e' eq_refl), andb_true_r.
    apply unreserved_ascii in U as [R _].
    unfold URI.scalar, URI.is_surrogate. compare. reflexivity.
  - destruct (URI.scalar c); [|discriminate].
    destruct (URI.encodeURIComponent s) as [e'|]; [|discriminate].
    by rewrite (IH e' eq_refl).
Qed.

(** X18.  [sendEmail] can build its link exactly when the four values it
    puts into the templates are well formed, that is, hold no unpaired
    surrogate: otherwise the percent-encoding throws. *)
Theorem mailtoLink_defined_iff_well_formed :
  forall data : gmap jsstring jsstring,
    is_Some (ContactForm.mailtoLink data)
    <-> forallb URI.scalar
          (ContactForm.prop data "name" ++ ContactForm.prop data "email"
           ++ ContactForm.prop data "subject" ++ ContactForm.prop data "message")
        = true.
Proof.
  intros data. unfold ContactForm.mailtoLink. split.
  - intros [link L].
    destruct (URI.encodeURIComponent (ContactForm.subject_text data))
      as [es|] eqn:Es; [|discriminate].
    destruct (URI.encodeURIComponent (ContactForm.body_text data))
      as [eb|] eqn:Eb; [|discriminate].
    apply encode_scalar in Eb.
    unfold ContactForm.body_text in Eb.
    rewrite !forallb_app, !andb_true_iff in Eb.
    rewrite !forallb_app, !andb_true_iff. tauto.
  - intros S. rewrite !forallb_app, !andb_true_iff in S.
    destruct S as (Sn & Se & Ss & Sm).
    assert (St : forallb URI.scalar (ContactForm.subject_text data) = true).
    { unfold ContactForm.subject_text.
      by rewrite forallb_app, str_scalar, Ss. }
    assert (Sb : forallb URI.scalar (ContactForm.body_text data) = true).
    { unfold ContactForm.body_text.
      rewrite !forallb_app, !str_scalar, Sn, Se, Ss, Sm. reflexivity. }
    destruct (encode_total _ St) as [es Es].
    destruct (encode_total _ Sb) as [eb Eb].
    rewrite Es, Eb. by eexists.
Qed.

(** X17.  When the form data hold no entry named "subject", the subject
    of the mail reads "Portfolio Contact: undefined": the missing property
    is written into the template as it is, and so into every link built
    from these data. *)
Theorem missing_subject_reads_undefined :
  forall es : list (jsstring * jsstring),
    Forall (fun e => e.1 <> str "subject") es ->
    let data := ContactForm.fromEntries es in
    ContactForm.subject_text data = str "Portfolio Contact: undefined"
    /\ forall link,
         ContactForm.mailtoLink data = Some link ->
         exists ebody,
           link = str "mailto:saikumarpolavaram@outlook.com?subject=Portfolio%20Contact%3A%20undefined&body="
                  ++ ebody.
Proof.
  intros es F data.
  assert (N : data !! str "subject" = None).
  { unfold data, ContactForm.fromEntries.
    rewrite fold_insert_other by exact F.
    apply lookup_empty. }
  assert (T : ContactForm.subject_text data = str "Portfolio Contact: undefined").
  { unfold ContactForm.subject_text, ContactForm.prop. by rewrite N. }
  split; [exact T|].
  intros link L. unfold ContactForm.mailtoLink in L. rewrite T in L.
  destruct (URI.encodeURIComponent (ContactForm.body_text data)) as [eb|];
    [|vm_compute in L; discriminate].
  exists eb.
  change (URI.encodeURIComponent (str "Portfolio Contact: undefined"))
    with (Some (str "Portfolio%20Contact%3A%20undefined")) in L.
  injection L as <-. reflexivity.
Qed.

Lemma missing_subject_reads_undefined_witness :
  ContactForm.subject_text
    (ContactForm.fromEntries
       [(str "name", str "A"); (str "message", str "Test")])
  = str "Portfolio Contact: undefined".
Proof.
  apply (missing_subject_reads_undefined
           [(str "name", str "A"); (str "message", str "Test")]).
  repeat constructor; vm_compute; discriminate.
Defined.

Lemma validateField_keeps_control f :
  ContactForm.name (ContactForm.validateField f).2 = ContactForm.name f
  /\ ContactForm.type (ContactForm.validateField f).2 = ContactForm.type f
  /\ ContactForm.value (ContactForm.validateField f).2 = ContactForm.value f.
Proof.
  unfold ContactForm.validateField.
  destruct (ContactForm.check f) as [ok m]. destruct ok; done.
Qed.

(** X19.  By the time the submit handler ends, whether it has sent, was
    blocked or has thrown, every control has the name, the type and the
    value it had, in the same order.  What the user typed is lost only
    through the reset of the form that a submission defers, and only a
    submission that sends defers one: it leaves one more callback pending,
    due a second later, with the label the button had; a blocked or a
    throwing submission leaves the pending callbacks as they were. *)
Theorem submit_defers_the_reset :
  forall f : ContactForm.form,
    let r := ContactForm.handleFormSubmit f in
    let f' := NavigationEvents.after r in
    map (fun g => (ContactForm.name g, ContactForm.type g, ContactForm.value g))
        (ContactForm.inputs f')
    = map (fun g => (ContactForm.name g, ContactForm.type g,
                     ContactForm.value g))
          (ContactForm.inputs f)
    /\ match r with
       | Normal _ =>
         if ContactForm.all_valid f then
           exists submit,
             ContactForm.submitButton f = Some submit
             /\ ContactForm.timeouts f'
                = ContactForm.timeouts f
                  ++ [(1000, ContactForm.RestoreForm
                               (ContactForm.innerHTML submit))]
         else ContactForm.timeouts f' = ContactForm.timeouts f
       | Throw _ _ => ContactForm.timeouts f' = ContactForm.timeouts f
       end.
Proof.
  intros f r f'.
  assert (V : map (fun g => (ContactForm.name g, ContactForm.type g,
                             ContactForm.value g))
                (ContactForm.inputs (ContactForm.validated f))
              = map (fun g => (ContactForm.name g, ContactForm.type g,
                               ContactForm.value g))
                    (ContactForm.inputs f)).
  { unfold ContactForm.validated. cbn [ContactForm.inputs].
    rewrite map_map. apply map_ext. intros g.
    destruct (validateField_keeps_control g) as (A & B & C).
    by rewrite A, B, C. }
  unfold f', r. rewrite handleFormSubmit_cases.
  destruct (ContactForm.all_valid f); [|split; [exact V|reflexivity]].
  unfold ContactForm.sendEmail.
  change (ContactForm.submitButton (ContactForm.validated f))
    with (ContactForm.submitButton f).
  destruct (ContactForm.submitButton f) as [submit|];
    [|split; [exact V|reflexivity]].
  destruct (ContactForm.mailtoLink _); (split; [exact V|]);
    [|reflexivity].
  exists submit. split; reflexivity.
Qed.

(** ** Throttle and debounce: whole executions *)

Section ThrottleExecutions.
Context {A W : Type}.
Variable func : A -> W -> completion W.

Lemma throttle_counts limit (evs : list (Throttled.event A)) :
  forall now (s : Throttled.state A W) now' s',
    Throttled.well s ->
    Throttled.run func limit now s evs = Some (now', s') ->
    Throttled.well s'
    /\ (length (Throttled.calls s) + Throttled.resets evs
        + (if Throttled.inThrottle s' then 1 else 0)
        <= length (Throttled.calls s')
           + (if Throttled.inThrottle s then 1 else 0))%nat
    /\ (length (Throttled.calls s')
        <= length (Throttled.calls s) + Throttled.invokes evs)%nat
    /\ (Throttled.returns func ->
        (length (Throttled.calls s')
         + (if Throttled.inThrottle s then 1 else 0)
         = length (Throttled.calls s) + Throttled.resets evs
           + (if Throttled.inThrottle s' then 1 else 0))%nat).
Proof.
  induction evs as [|e evs IH]; intros now s now' s' Wl R.
  - injection R as _ <-. unfold Throttled.resets, Throttled.invokes.
    simpl. repeat split; [exact Wl | lia | lia | lia].
  - cbn [Throttled.run] in R.
    destruct (Throttled.step func limit now s e) as [[now1 s1]|] eqn:St;
      [|discriminate].
    assert (W1 : Throttled.well s1
                 /\ (length (Throttled.calls s)
                     + (if Throttled.is_invoke e then 0 else 1)
                     + (if Throttled.inThrottle s1 then 1 else 0)
                     <= length (Throttled.calls s1)
                        + (if Throttled.inThrottle s then 1 else 0))%nat
                 /\ (length (Throttled.calls s1)
                     <= length (Throttled.calls s)
                        + (if Throttled.is_invoke e then 1 else 0))%nat
                 /\ (Throttled.returns func ->
                     (length (Throttled.calls s1)
                      + (if Throttled.inThrottle s then 1 else 0)
                      = length (Throttled.calls s)
                        + (if Throttled.is_invoke e then 0 else 1)
                        + (if Throttled.inThrottle s1 then 1 else 0))%nat)).
    { destruct e as [t a | t i]; cbn [Throttled.step Throttled.is_invoke] in *.
      - destruct (now <=? t); [|discriminate]. injection St as _ <-.
        unfold Throttled.wrapper, Throttled.well in *.
        destruct (Throttled.inThrottle s) eqn:I; cbn [negb]; rewrite ?I in Wl.
        + rewrite I. repeat split; [exact Wl | lia | lia | lia].
        + destruct (func a (Throttled.world s)) as [w|err w] eqn:F;
            cbn [Throttled.inThrottle Throttled.pending Throttled.calls].
          * split; [exists (t + Timers.delay limit); by rewrite Wl|].
            rewrite length_app. cbn. lia.
          * split; [exact Wl|].
            rewrite length_app. cbn. repeat split; try lia.
            intros Rt. destruct (Rt a (Throttled.world s)) as [w' E].
            congruence.
      - destruct (Throttled.pending s !! i) as [due|] eqn:P; [|discriminate].
        destruct ((now <=? t) && (due <=? t)); [|discriminate].
        injection St as _ <-. unfold Throttled.well in *.
        destruct (Throttled.inThrottle s) eqn:I; rewrite ?I in Wl.
        + destruct Wl as [d Wl]. rewrite Wl in P.
          destruct i as [|i]; [|discriminate].
          cbn [Throttled.reset Throttled.inThrottle Throttled.pending
               Throttled.calls].
          rewrite Wl. cbn. repeat split; lia.
        + rewrite Wl in P. discriminate. }
    destruct W1 as (W1 & C1 & L1 & E1).
    destruct (IH _ _ _ _ W1 R) as (W' & C' & L' & E').
    split; [exact W'|].
    unfold Throttled.resets, Throttled.invokes in *. cbn [List.filter].
    destruct (Throttled.is_invoke e); cbn [negb length] in *;
      (split; [lia|]; split; [lia|]);
      intros Rt; specialize (E1 Rt); specialize (E' Rt); lia.
Qed.


End ThrottleExecutions.


Lemma spaced_snoc gap ts t :
  Executions.spaced gap ts ->
  (forall tl, last ts = Some tl -> tl + gap <= t) ->
  Executions.spaced gap (ts ++ [t]).
Proof.
  induction ts as [|a ts IH]; intros S L; [exact I|].
  destruct ts as [|b ts].
  - cbn. split; [|exact I]. apply L. reflexivity.
  - cbn [app Executions.spaced] in *. destruct S as [S1 S2].
    split; [exact S1|]. apply IH; [exact S2|].
    intros tl E. apply L. exact E.
Qed.

Section Paced.
Context {W : Type}.
Variable func : Z -> W -> completion W.

Lemma throttle_paced_run limit (evs : list (Throttled.event Z)) :
  forall now (s : Throttled.state Z W) now' s',
    Throttled.returns func ->
    Throttled.stamped evs ->
    Executions.throttle_paced limit now s ->
    Throttled.run func limit now s evs = Some (now', s') ->
    Executions.throttle_paced limit now' s'.
Proof.
  induction evs as [|e evs IH]; intros now s now' s' Rt St J R.
  - by injection R as <- <-.
  - apply Forall_cons in St as [Se St]. cbn [Throttled.run] in R.
    destruct (Throttled.step func limit now s e) as [[now1 s1]|] eqn:E;
      [|discriminate].
    apply (IH now1 s1 now' s' Rt St); [|exact R]. clear IH R.
    destruct J as [Sp J].
    destruct e as [t a | t i]; cbn [Throttled.step] in E.
    + subst a. destruct (now <=? t) eqn:L; [|discriminate].
      apply Z.leb_le in L. injection E as <- <-.
      unfold Throttled.wrapper.
      destruct J as [(I & P & Lt) | (I & tl & La & P)]; rewrite I; cbn [negb].
      * destruct (Rt t (Throttled.world s)) as [w' F]. rewrite F.
        split; cbn [Throttled.calls Throttled.inThrottle Throttled.pending].
        -- apply spaced_snoc; [exact Sp|]. intros tl Etl.
           specialize (Lt tl Etl). lia.
        -- right. split; [reflexivity|]. exists t.
           rewrite last_snoc, P. done.
      * split; [exact Sp|]. right. split; [exact I|]. by exists tl.
    + destruct (Throttled.pending s !! i) as [due|] eqn:P; [|discriminate].
      destruct ((now <=? t) && (due <=? t)) eqn:G; [|discriminate].
      apply andb_true_iff in G as [G1 G2]. apply Z.leb_le in G1, G2.
      injection E as <- <-.
      destruct J as [(I & P' & Lt) | (I & tl & La & P')];
        rewrite P' in P; [discriminate|].
      destruct i as [|i]; [|discriminate]. injection P as <-.
      split; [exact Sp|]. left.
      cbn [Throttled.reset Throttled.inThrottle Throttled.pending
           Throttled.calls].
      rewrite P'. split; [reflexivity|]. split; [reflexivity|].
      intros tl' E'. rewrite La in E'. injection E' as <-. lia.
Qed.


End Paced.


Section DebounceExecutions.
Context {A : Type}.

Lemma debounce_settled_sublist (s : Debounce.state A) (given : list A) :
  Executions.debounce_settled s given -> sublist (Debounce.calls s) given.
Proof.
  intros [[_ S] | (i & d & a & before & -> & _ & _ & S)]; [exact S|].
  by apply sublist_inserts_r.
Qed.

Lemma debounce_settled_run wait (evs : list (Debounce.event A)) :
  forall now (s : Debounce.state A) now' (s' : Debounce.state A)
         (given : list A),
    Executions.debounce_settled s given ->
    Debounce.run wait now s evs = Some (now', s') ->
    Executions.debounce_settled s' (given ++ map snd (Debounce.invocations evs)).
Proof.
  induction evs as [|e evs IH]; intros now s now' s' given J R.
  - injection R as _ <-. cbn. by rewrite app_nil_r.
  - cbn [Debounce.run] in R.
    destruct (Debounce.step wait now s e) as [[now1 s1]|] eqn:E;
      [|discriminate].
    destruct e as [t a | t j]; cbn [Debounce.step] in E.
    + destruct (now <=? t); [|discriminate]. injection E as _ <-.
      change (Debounce.invocations (Debounce.Invoke t a :: evs))
        with ((t, a) :: Debounce.invocations evs).
      cbn [map snd].
      replace (given ++ a :: map snd (Debounce.invocations evs))
        with ((given ++ [a]) ++ map snd (Debounce.invocations evs))
        by (by rewrite <- app_assoc).
      refine (IH _ _ _ _ _ _ R).
      right. exists (Debounce.next_id s), (t + Z.max 0 wait), a, given.
      split; [reflexivity|]. split; [reflexivity|].
      split; [|exact (debounce_settled_sublist _ _ J)].
      unfold Debounce.wrapper. cbn [Debounce.pending].
      destruct J as [[P _] | (i & d & a0 & before & _ & T & P & _)];
        rewrite P; [reflexivity|].
      rewrite T. unfold Debounce.clearTimeout. cbn [List.filter Debounce.id].
      rewrite bool_decide_eq_true_2 by reflexivity. reflexivity.
    + change (Debounce.invocations (Debounce.Timer t j :: evs))
        with (Debounce.invocations evs).
      destruct J as [[P _] | (i & d & a0 & before & -> & T & P & S)];
        rewrite P in E; [discriminate|].
      destruct j as [|j]; [|discriminate]. cbn [lookup list_lookup] in E.
      destruct ((now <=? t) && _); [|discriminate]. injection E as _ <-.
      refine (IH _ _ _ _ _ _ R).
      left. unfold Debounce.later, Debounce.take.
      cbn [Debounce.pending Debounce.calls Debounce.timeout Debounce.args].
      rewrite P. split; [reflexivity|].
      apply sublist_app; [exact S | reflexivity].
Qed.

(** X22.  In every execution of a debounced wrapper, from its creation: at
    most one timer is pending; the callback has been called with some of
    the arguments the wrapper was called with, in their order and each at
    most once; and a pending timer is the one of the last call of the
    wrapper, whose arguments have not been passed on yet. *)
Theorem debounce_fires_a_subsequence :
  forall (wait now : Z) (evs : list (Debounce.event A)) (now' : Z)
         (s' : Debounce.state A),
    Debounce.run wait now Debounce.initial evs = Some (now', s') ->
    (length (Debounce.pending s') <= 1)%nat
    /\ sublist (Debounce.calls s') (map snd (Debounce.invocations evs))
    /\ forall tm, Debounce.pending s' = [tm] ->
                  last (map snd (Debounce.invocations evs))
                  = Some (Debounce.args tm)
                  /\ sublist (Debounce.calls s')
                       (removelast (map snd (Debounce.invocations evs))).
Proof.
  intros wait now evs now' s' R.
  pose proof (debounce_settled_run wait evs now Debounce.initial now' s' [])
    as J.
  cbn [app] in J. specialize (J (or_introl (conj eq_refl (sublist_nil_l _))) R).
  split; [|split].
  - destruct J as [[P _] | (i & d & a & before & _ & _ & P & _)];
      rewrite P; cbn; lia.
  - by apply debounce_settled_sublist.
  - intros tm P.
    destruct J as [[P' _] | (i & d & a & before & E & _ & P' & S)];
      rewrite P' in P; [discriminate|].
    injection P as <-. rewrite E, last_snoc, removelast_last. done.
Qed.

End DebounceExecutions.

Lemma debounce_fires_a_subsequence_witness :
  (length (Debounce.pending
             (Debounce.wrapper 250 400 3
                (Debounce.later
                   {| Debounce.id := 2; Debounce.due := 350;
                      Debounce.args := 2 |}
                   (Debounce.take 0
                      (Debounce.wrapper 250 100 2
                         (Debounce.wrapper 250 0 1 Debounce.initial))))))
   <= 1)%nat.
Proof.
  apply (debounce_fires_a_subsequence 250 0
           [Debounce.Invoke 0 1; Debounce.Invoke 100 2; Debounce.Timer 360 0;
            Debounce.Invoke 400 3] 400
           (Debounce.wrapper 250 400 3
              (Debounce.later
                 {| Debounce.id := 2; Debounce.due := 350;
                    Debounce.args := 2 |}
                 (Debounce.take 0
                    (Debounce.wrapper 250 100 2
                       (Debounce.wrapper 250 0 1 Debounce.initial)))))
           eq_refl).
Defined.

(** ** Theme preference *)

Lemma stored_theme_not_empty storage : ThemeManager.stored_theme storage <> [].
Proof.
  unfold ThemeManager.stored_theme.
  destruct (storage !! str "theme") as [[|c t]|]; discriminate.
Qed.

Lemma construct_in_sync storage attribute :
  ThemeManager.in_sync (ThemeManager.construct storage attribute).
Proof.
  unfold ThemeManager.in_sync, ThemeManager.construct, ThemeManager.applyTheme.
  cbn [ThemeManager.localStorage ThemeManager.currentTheme
       ThemeManager.data_theme].
  rewrite lookup_insert_eq. split; [reflexivity|]. split; [reflexivity|].
  apply stored_theme_not_empty.
Qed.

Lemma toggleTheme_in_sync s :
  ThemeManager.in_sync (ThemeManager.toggleTheme s)
  /\ (ThemeManager.currentTheme (ThemeManager.toggleTheme s) = str "light"
      \/ ThemeManager.currentTheme (ThemeManager.toggleTheme s) = str "dark").
Proof.
  unfold ThemeManager.in_sync, ThemeManager.toggleTheme, ThemeManager.applyTheme.
  cbn [ThemeManager.localStorage ThemeManager.currentTheme
       ThemeManager.data_theme].
  rewrite lookup_insert_eq.
  destruct (jsstring_eqb _ _); repeat split; try discriminate; auto.
Qed.

Lemma toggleTheme_other_keys s k :
  k <> str "theme" ->
  ThemeManager.localStorage (ThemeManager.toggleTheme s) !! k
  = ThemeManager.localStorage s !! k.
Proof.
  intros N. unfold ThemeManager.toggleTheme, ThemeManager.applyTheme.
  cbn [ThemeManager.localStorage]. by apply lookup_insert_ne.
Qed.

Lemma toggles_in_sync n :
  forall s, ThemeManager.in_sync s -> ThemeManager.in_sync (ThemeManager.toggles n s).
Proof.
  induction n as [|n IH]; intros s I; [exact I|].
  cbn [ThemeManager.toggles]. apply IH. apply toggleTheme_in_sync.
Qed.

Lemma toggles_other_keys n k :
  k <> str "theme" ->
  forall s, ThemeManager.localStorage (ThemeManager.toggles n s) !! k
            = ThemeManager.localStorage s !! k.
Proof.
  intros N. induction n as [|n IH]; intros s; [reflexivity|].
  cbn [ThemeManager.toggles]. rewrite IH. by apply toggleTheme_other_keys.
Qed.

(** X23.  After the construction of the theme manager and any number of
    toggles, the stored preference and the attribute of the document are
    both the current theme, which is never empty, and every other key of
    the storage is as it was. *)
Theorem theme_stays_in_sync :
  forall (storage : gmap jsstring jsstring) (attribute : option jsstring)
         (n : nat),
    let s := ThemeManager.toggles n (ThemeManager.construct storage attribute) in
    ThemeManager.localStorage s !! str "theme"
    = Some (ThemeManager.currentTheme s)
    /\ ThemeManager.data_theme s = Some (ThemeManager.currentTheme s)
    /\ ThemeManager.currentTheme s <> []
    /\ forall k, k <> str "theme" ->
                 ThemeManager.localStorage s !! k = storage !! k.
Proof.
  intros storage attribute n s.
  destruct (toggles_in_sync n _ (construct_in_sync storage attribute))
    as (A & B & C).
  split; [exact A|]. split; [exact B|]. split; [exact C|].
  intros k N. unfold s. rewrite toggles_other_keys by exact N.
  unfold ThemeManager.construct, ThemeManager.applyTheme.
  cbn [ThemeManager.localStorage]. by apply lookup_insert_ne.
Qed.

Lemma stored_theme_current s :
  ThemeManager.in_sync s ->
  ThemeManager.stored_theme (ThemeManager.localStorage s)
  = ThemeManager.currentTheme s.
Proof.
  intros (A & _ & C). unfold ThemeManager.stored_theme.
  cut (forall o : option jsstring,
          o = Some (ThemeManager.currentTheme s) ->
          match o with Some (c :: t) => c :: t | _ => str "light" end
          = ThemeManager.currentTheme s).
  { intros H. exact (H _ A). }
  intros o ->. by destruct (ThemeManager.currentTheme s).
Qed.

(** X24.  The preference survives a reload: a theme manager constructed
    over the storage that an earlier one has left, after any number of
    toggles, starts with the theme the earlier one ended with, and leaves
    the storage as it is. *)
Theorem theme_survives_reload :
  forall (storage : gmap jsstring jsstring) (attribute attribute' : option jsstring)
         (n : nat),
    let s := ThemeManager.toggles n (ThemeManager.construct storage attribute) in
    ThemeManager.construct (ThemeManager.localStorage s) attribute'
    = {| ThemeManager.currentTheme := ThemeManager.currentTheme s;
         ThemeManager.localStorage := ThemeManager.localStorage s;
         ThemeManager.data_theme := Some (ThemeManager.currentTheme s) |}.
Proof.
  intros storage attribute attribute' n s.
  pose proof (toggles_in_sync n _ (construct_in_sync storage attribute)) as I.
  fold s in I. unfold ThemeManager.construct, ThemeManager.applyTheme.
  cbn [ThemeManager.localStorage ThemeManager.currentTheme
       ThemeManager.data_theme].
  rewrite (stored_theme_current s I). f_equal.
  apply insert_id. apply I.
Qed.

(** X25.  From "light" or "dark", two toggles bring back the state they
    started from.  From any other stored theme, the first toggle gives
    "light" and the second "dark": the theme that was stored is not
    reached again. *)
Theorem toggleTheme_twice :
  forall s : ThemeManager.state,
    ThemeManager.in_sync s ->
    (ThemeManager.currentTheme s = str "light"
     \/ ThemeManager.currentTheme s = str "dark"
     -> ThemeManager.toggleTheme (ThemeManager.toggleTheme s) = s)
    /\ (ThemeManager.currentTheme s <> str "light" ->
        ThemeManager.currentTheme s <> str "dark" ->
        ThemeManager.currentTheme (ThemeManager.toggleTheme s) = str "light"
        /\ ThemeManager.currentTheme
             (ThemeManager.toggleTheme (ThemeManager.toggleTheme s))
           = str "dark").
Proof.
  intros s (A & B & C). split.
  - intros E. unfold ThemeManager.toggleTheme, ThemeManager.applyTheme.
    cbn [ThemeManager.localStorage ThemeManager.currentTheme
         ThemeManager.data_theme].
    rewrite insert_insert_eq.
    destruct s as [cur st attr]. cbn in *. subst attr.
    destruct E as [-> | ->]; cbn; f_equal; by apply insert_id.
  - intros N1 N2. unfold ThemeManager.toggleTheme, ThemeManager.applyTheme.
    cbn [ThemeManager.currentTheme].
    destruct (jsstring_eqb (ThemeManager.currentTheme s) (str "light")) eqn:E.
    + apply bool_decide_eq_true in E. done.
    + done.
Qed.

Lemma toggleTheme_twice_witness :
  (ThemeManager.currentTheme (ThemeManager.construct ∅ None) = str "light"
   \/ ThemeManager.currentTheme (ThemeManager.construct ∅ None) = str "dark"
   -> ThemeManager.toggleTheme
        (ThemeManager.toggleTheme (ThemeManager.construct ∅ None))
      = ThemeManager.construct ∅ None)
  /\ (ThemeManager.currentTheme (ThemeManager.construct ∅ None) <> str "light" ->
      ThemeManager.currentTheme (ThemeManager.construct ∅ None) <> str "dark" ->
      ThemeManager.currentTheme
        (ThemeManager.toggleTheme (ThemeManager.construct ∅ None))
      = str "light"
      /\ ThemeManager.currentTheme
           (ThemeManager.toggleTheme
              (ThemeManager.toggleTheme (ThemeManager.construct ∅ None)))
         = str "dark").
Proof.
  apply (toggleTheme_twice (ThemeManager.construct ∅ None)).
  apply construct_in_sync.
Defined.

(** ** Visibility observers *)

Lemma update_eq {V : Type} x (v : V) f : Observers.update x v f x = v.
Proof. unfold Observers.update. by rewrite Nat.eqb_refl. Qed.

Lemma update_ne {V : Type} x y (v : V) f :
  y <> x -> Observers.update x v f y = f y.
Proof.
  intros N. unfold Observers.update.
  destruct (Nat.eqb y x) eqn:E; [|reflexivity].
  apply Nat.eqb_eq in E. done.
Qed.

Lemma hits_snoc x es e :
  Observers.hits x (es ++ [e])
  = (Observers.hits x es
     + (if Observers.isIntersecting e && bool_decide (Observers.target e = x)
        then 1 else 0))%nat.
Proof.
  unfold Observers.hits. rewrite List.filter_app, length_app. cbn [List.filter].
  by destruct (_ && _).
Qed.

Lemma contains_add_keeps tok tok' l :
  DOMTokenList.contains tok l = true ->
  DOMTokenList.contains tok (DOMTokenList.add tok' l) = true.
Proof.
  intros C. unfold DOMTokenList.add.
  destruct (DOMTokenList.contains tok' l); [exact C|].
  by rewrite contains_app, C.
Qed.

Lemma add_add tok l :
  DOMTokenList.add tok (DOMTokenList.add tok l) = DOMTokenList.add tok l.
Proof. unfold DOMTokenList.add at 1. by rewrite contains_add_eq. Qed.

Lemma removed_out (x : nat) (X : gset nat) : x ∉ X ∖ {[x]}.
Proof.
  rewrite elem_of_difference, elem_of_singleton. intros [_ N]. by apply N.
Qed.

Lemma removed_other (x y : nat) (X : gset nat) :
  x <> y -> x ∈ X ∖ {[y]} <-> x ∈ X.
Proof.
  intros N. rewrite elem_of_difference, elem_of_singleton. tauto.
Qed.

Lemma removed_sub (x y : nat) (X : gset nat) : x ∈ X ∖ {[y]} -> x ∈ X.
Proof. rewrite elem_of_difference. tauto. Qed.

(** X26.  The reveal observer is one-shot and only adds: over any entries,
    no element becomes observed and no element loses a class; an element
    reported as intersecting at least once ends unobserved, with the class
    "animate-fade-in-up" added once; an element never reported as
    intersecting keeps its classes and stays observed or not as it was. *)
Theorem reveal_is_one_shot :
  forall (entries : list Observers.entry) (s : Observers.reveal_state)
         (x : nat),
    let s' := Observers.animateOnScroll entries s in
    (x ∈ Observers.observed s' -> x ∈ Observers.observed s)
    /\ (forall tok, DOMTokenList.contains tok (Observers.classes s x) = true ->
                    DOMTokenList.contains tok (Observers.classes s' x) = true)
    /\ (if decide (Observers.hits x entries = 0%nat) then
          Observers.classes s' x = Observers.classes s x
          /\ (x ∈ Observers.observed s' <-> x ∈ Observers.observed s)
        else
          (x ∉ Observers.observed s')
          /\ Observers.classes s' x
             = DOMTokenList.add (str "animate-fade-in-up")
                                (Observers.classes s x)).
Proof.
  intros entries s x. unfold Observers.animateOnScroll.
  induction entries as [|e entries IH] using rev_ind.
  - cbn. repeat split; auto.
  - rewrite fold_left_app, hits_snoc. cbn [fold_left]. cbv zeta in *.
    set (s1 := fold_left Observers.reveal entries s) in *.
    destruct IH as (O & K & H).
    unfold Observers.reveal.
    destruct (Observers.isIntersecting e) eqn:I; cbn [andb];
      [|rewrite Nat.add_0_r; done].
    cbn [Observers.observed Observers.classes].
    case_bool_decide as T.
    + subst x. rewrite update_eq.
      split; [intros F; apply O; by apply removed_sub in F|].
      split; [intros tok C; by apply contains_add_keeps, K|].
      destruct (decide (_ + 1 = 0)%nat) as [F|_]; [lia|].
      split; [apply removed_out|].
      destruct (decide (Observers.hits _ entries = 0%nat)) as [Z|NZ].
      * destruct H as [-> _]. reflexivity.
      * destruct H as [_ ->]. apply add_add.
    + rewrite update_ne by congruence. rewrite Nat.add_0_r.
      assert (N : x <> Observers.target e) by congruence.
      split; [intros F; apply O; by apply removed_sub in F|].
      split; [exact K|].
      destruct (decide _).
      * destruct H as [-> H]. split; [reflexivity|].
        rewrite removed_other by exact N. exact H.
      * destruct H as [H1 H2]. split; [|exact H2].
        rewrite removed_other by exact N. exact H1.
Qed.

(** X27.  What the lazy loader leaves of an image depends on how often the
    entries report it as intersecting: never, and the image is untouched;
    once, and its source is what the deferred attribute held, the
    attribute removed, the image no longer watched; more than once, and
    its source is the string "undefined", because the second load reads
    the attribute that the first one removed. *)
Theorem lazy_load_by_hits :
  forall (entries : list Observers.entry) (s : Observers.lazy_state)
         (x : nat),
    let s' := Observers.imageObserver entries s in
    match Observers.hits x entries with
    | O => Observers.images s' x = Observers.images s x
           /\ (x ∈ Observers.watched s' <-> x ∈ Observers.watched s)
    | S O => Observers.images s' x = Observers.load (Observers.images s x)
             /\ (x ∉ Observers.watched s')
    | S (S _) =>
      Observers.images s' x
      = {| Observers.src := Some (str "undefined");
           Observers.data_src := None |}
      /\ (x ∉ Observers.watched s')
    end.
Proof.
  intros entries s x. unfold Observers.imageObserver.
  induction entries as [|e entries IH] using rev_ind.
  - cbn. done.
  - rewrite fold_left_app, hits_snoc. cbn [fold_left]. cbv zeta in *.
    set (s1 := fold_left Observers.lazy_load entries s) in *.
    unfold Observers.lazy_load.
    destruct (Observers.isIntersecting e) eqn:I; cbn [andb];
      [|by rewrite Nat.add_0_r].
    cbn [Observers.watched Observers.images].
    case_bool_decide as T.
    + subst x. rewrite update_eq.
      destruct (Observers.hits _ entries) as [|[|k]]; cbn [Nat.add];
        destruct IH as [-> _]; (split; [reflexivity | apply removed_out]).
    + rewrite update_ne by congruence. rewrite Nat.add_0_r.
      assert (N : x <> Observers.target e) by congruence.
      destruct (Observers.hits x entries) as [|[|k]];
        destruct IH as [H1 H2]; (split; [exact H1|]);
        rewrite removed_other by exact N; exact H2.
Qed.
